(** * The inotify sample: the Watch registry and the event loop

    A shallow embedding of [inotify-example.cpp].  The [Watch] class keeps two
    [std::map]s: [watch], from a watch descriptor to its parent descriptor and
    name, and [rwatch], from (parent descriptor, name) back to the watch
    descriptor.  Both are modelled as finite maps; [std::map::operator[]],
    which inserts a value-initialised element when the key is absent, is
    written out as [map_index]. *)

From stdpp Require Import gmap strings list fin_maps.

Local Open Scope string_scope.
Local Open Scope list_scope.
Local Open Scope Z_scope.

(** ** Data model *)

(** [struct wd_elem { int pd; string name; ... }].  Descriptors are [int]s;
    the registry stores and compares them and computes nothing from them, so
    they are kept as integers. *)
Record wd_elem : Type := Build_wd_elem { pd : Z; name : string }.

#[global] Instance wd_elem_eq_dec : EqDecision wd_elem.
Proof. solve_decision. Defined.

#[global] Instance wd_elem_countable : Countable wd_elem :=
  inj_countable' (fun e => (pd e, name e))
                 (fun p => Build_wd_elem (fst p) (snd p))
                 (fun e => match e with Build_wd_elem _ _ => eq_refl end).

(** [wd_elem::operator()], the ordering of the keys of [rwatch]:
    [l.pd < r.pd ? true : l.pd == r.pd && l.name < r.name ? true : false].
    [std::string]'s [operator<] compares byte by byte. *)
Definition wd_elem_less (l r : wd_elem) : bool :=
  if pd l <? pd r then true
  else if (pd l =? pd r) && String.ltb (name l) (name r) then true
  else false.

(** A value-initialised [wd_elem]: [pd] zero, [name] empty. *)
Definition wd_elem_default : wd_elem := Build_wd_elem 0 "".

(** [class Watch]: the forward map [watch] and the reverse map [rwatch]. *)
Record Watch : Type := Build_Watch {
  watch : gmap Z wd_elem;
  rwatch : gmap wd_elem Z
}.

(** A default-constructed [Watch]. *)
Definition Watch_empty : Watch := Build_Watch ∅ ∅.

(** [m[k]] of a [std::map]: the stored element, or a value-initialised one
    that is inserted first when [k] has none.  Returns the element and the
    map as the call leaves it. *)
Definition map_index `{Countable K} {V} (m : gmap K V) (k : K) (dflt : V)
  : V * gmap K V :=
  match m !! k with
  | Some v => (v, m)
  | None => (dflt, <[k := dflt]> m)
  end.

(** ** The operations of [Watch] *)

(** [void insert (int pd, const string &name, int wd)]. *)
Definition insert (w : Watch) (pd : Z) (name : string) (wd : Z) : Watch :=
  let elem := Build_wd_elem pd name in
  Build_Watch (<[wd := elem]> (watch w)) (<[elem := wd]> (rwatch w)).

(** [string erase (int pd, const string &name, int *wd)]: the returned
    string, the value stored through [wd], and the registry afterwards. *)
Definition erase (w : Watch) (pd : Z) (name0 : string) : string * Z * Watch :=
  let pelem := Build_wd_elem pd name0 in
  let '(wd, rw1) := map_index (rwatch w) pelem 0 in
  let rw2 := delete pelem rw1 in
  let '(elem, fw1) := map_index (watch w) wd wd_elem_default in
  let dir := name elem in
  let fw2 := delete wd fw1 in
  (dir, wd, Build_Watch fw2 rw2).

(** [string get (int wd)].  The recursion goes up the parent descriptors and
    need not end, so it runs on fuel: [None] is "no answer within [fuel]
    nested calls".  [elem] is a reference into [watch]; the nested call only
    adds elements for absent keys ([get_keeps_entries] below), so the name
    read after it returns is the one read here. *)
Fixpoint get (fuel : nat) (w : Watch) (wd : Z) : option (string * Watch) :=
  match fuel with
  | O => None
  | S fuel' =>
      let '(elem, fw1) := map_index (watch w) wd wd_elem_default in
      let w1 := Build_Watch fw1 (rwatch w) in
      if pd elem =? -1 then Some (name elem, w1)
      else match get fuel' w1 (pd elem) with
           | Some (p, w2) => Some (p +:+ "/" +:+ name elem, w2)
           | None => None
           end
  end.

(** [int get (int pd, string name)]. *)
Definition get_wd (w : Watch) (pd : Z) (name0 : string) : Z * Watch :=
  let elem := Build_wd_elem pd name0 in
  let '(wd, rw1) := map_index (rwatch w) elem 0 in
  (wd, Build_Watch (watch w) rw1).

(** [void stats()] prints [watch.size()] and [rwatch.size()]. *)
Definition stats (w : Watch) : nat * nat := (size (watch w), size (rwatch w)).

(** *** [void cleanup (int fd)]

    [[
    for (map<int, wd_elem>::iterator wi = watch.begin(); wi != watch.end(); wi++) {
        inotify_rm_watch (fd, wi->first);
        watch.erase (wi);
    }
    rwatch.clear();
    ]]
    An iterator of a [std::map] is a position in key order.  [erase] through
    an iterator invalidates that iterator, and incrementing an invalidated
    iterator has no defined behaviour; the model keeps track of that. *)

Inductive iterator : Type :=
  | It_at (k : Z)     (* refers to the element with key [k] *)
  | It_end            (* past the last element *)
  | It_invalid.       (* the element it referred to was erased *)

(** What running a piece of code gives: a value, no defined behaviour, or no
    answer within the fuel. *)
Inductive outcome (A : Type) : Type :=
  | Done (a : A)
  | Undefined
  | OutOfFuel.
Arguments Done {A} a.
Arguments Undefined {A}.
Arguments OutOfFuel {A}.

(** The smallest of a list of keys. *)
Definition least (ks : list Z) : iterator :=
  match ks with
  | [] => It_end
  | k :: ks' => It_at (foldr Z.min k ks')
  end.

Definition map_keys {V} (m : gmap Z V) : list Z := (map_to_list m).*1.

(** [m.begin()]. *)
Definition map_begin {V} (m : gmap Z V) : iterator := least (map_keys m).

(** [wi++]: the next position in key order; [None] where the language
    defines none (past the end, or an invalidated iterator). *)
Definition iterator_incr {V} (m : gmap Z V) (wi : iterator) : option iterator :=
  match wi with
  | It_at k => Some (least (filter (fun k' => k < k') (map_keys m)))
  | It_end => None
  | It_invalid => None
  end.

(** [m.erase (wi)]: the map without the element, and what has become of
    [wi]. *)
Definition map_erase_at {V} (m : gmap Z V) (wi : iterator)
  : option (gmap Z V * iterator) :=
  match wi with
  | It_at k => Some (delete k m, It_invalid)
  | It_end => None
  | It_invalid => None
  end.

(** The [for] loop of [cleanup]; [rm] collects the descriptors handed to
    [inotify_rm_watch], in call order. *)
Fixpoint cleanup_loop (fuel : nat) (fw : gmap Z wd_elem) (wi : iterator)
    (rm : list Z) : outcome (gmap Z wd_elem * list Z) :=
  match wi with
  | It_end => Done (fw, rm)
  | It_invalid => Undefined
  | It_at k =>
      match fuel with
      | O => OutOfFuel
      | S fuel' =>
          let rm' := rm ++ [k] in
          match map_erase_at fw wi with
          | None => Undefined
          | Some (fw', wi') =>
              match iterator_incr fw' wi' with
              | None => Undefined
              | Some wi'' => cleanup_loop fuel' fw' wi'' rm'
              end
          end
      end
  end.

(** [cleanup]: the descriptors deregistered and the registry afterwards.  One
    round of the loop per element suffices, so the fuel is the size. *)
Definition cleanup (w : Watch) : outcome (list Z * Watch) :=
  match cleanup_loop (size (watch w)) (watch w) (map_begin (watch w)) [] with
  | Done (fw, rm) => Done (rm, Build_Watch fw ∅)
  | Undefined => Undefined
  | OutOfFuel => OutOfFuel
  end.

(** ** The event loop of [main] *)

(** Event bits of [<sys/inotify.h>] (Linux). *)
Definition IN_CREATE : Z := 0x100.
Definition IN_DELETE : Z := 0x200.
Definition IN_Q_OVERFLOW : Z := 0x4000.
Definition IN_IGNORED : Z := 0x8000.
Definition IN_ISDIR : Z := 0x40000000.

(** [struct inotify_event]: [wd], [mask], [len] and [name] (the cookie is
    not read). *)
Record inotify_event : Type := Build_inotify_event {
  ev_wd : Z;
  ev_mask : Z;
  ev_len : Z;
  ev_name : string
}.

(** [event->mask & bit] used as a condition. *)
Definition has_flag (mask bit : Z) : bool := negb (Z.land mask bit =? 0).

(** What the loop does to the outside: lines printed (by their [%s]
    arguments) and calls on the inotify descriptor. *)
Inductive action : Type :=
  | Print_Overflow
  | Print_IN_IGNORED
  | Print_New_directory (path : string)
  | Print_New_file (dir file : string)
  | Print_Directory_deleted (path : string)
  | Print_File_deleted (dir file : string)
  | Call_add_watch (path : string)
  | Call_rm_watch (wd : Z).

(** The variables of [main] that the loop updates.  The two counters are
    [int]s; they are kept as integers, the runs considered here being far
    from [INT_MAX]. *)
Record main_state : Type := Build_main_state {
  main_watch : Watch;
  main_wd : Z;
  current_dir : string;
  new_dir : string;
  total_file_events : Z;
  total_dir_events : Z
}.

(** The two tests at the head of the loop body: [event->wd == -1] and
    [event->mask & IN_Q_OVERFLOW], each printing "Overflow". *)
Definition overflow_report (event : inotify_event) : list action :=
  (if ev_wd event =? -1 then [Print_Overflow] else [])
  ++ (if has_flag (ev_mask event) IN_Q_OVERFLOW then [Print_Overflow] else []).

(** The body of the [for] loop over the event buffer, for one event.
    [added] is what [inotify_add_watch] returns should this event make the
    loop call it.  [None]: a [get] gave no answer within [fuel]. *)
Definition process_event (fuel : nat) (st : main_state)
    (event : inotify_event) (added : Z) : option (main_state * list action) :=
  let out0 := overflow_report event in
  if ev_len event =? 0 then Some (st, out0)
  else
    let out := out0 ++
      (if has_flag (ev_mask event) IN_IGNORED then [Print_IN_IGNORED] else []) in
    if has_flag (ev_mask event) IN_CREATE then
      match get fuel (main_watch st) (ev_wd event) with
      | None => None
      | Some (dir, w1) =>
          if has_flag (ev_mask event) IN_ISDIR then
            let nd := dir +:+ "/" +:+ ev_name event in
            let w2 := insert w1 (ev_wd event) (ev_name event) added in
            Some (Build_main_state w2 added dir nd
                    (total_file_events st) (total_dir_events st + 1),
                  out ++ [Call_add_watch nd; Print_New_directory nd])
          else
            Some (Build_main_state w1 (main_wd st) dir (new_dir st)
                    (total_file_events st + 1) (total_dir_events st),
                  out ++ [Print_New_file dir (ev_name event)])
      end
    else if has_flag (ev_mask event) IN_DELETE then
      if has_flag (ev_mask event) IN_ISDIR then
        let '(nd, wd, w1) := erase (main_watch st) (ev_wd event) (ev_name event) in
        Some (Build_main_state w1 wd (current_dir st) nd
                (total_file_events st) (total_dir_events st - 1),
              out ++ [Call_rm_watch wd; Print_Directory_deleted nd])
      else
        match get fuel (main_watch st) (ev_wd event) with
        | None => None
        | Some (dir, w1) =>
            Some (Build_main_state w1 (main_wd st) dir (new_dir st)
                    (total_file_events st - 1) (total_dir_events st),
                  out ++ [Print_File_deleted dir (ev_name event)])
        end
    else Some (st, out).

(** The events for which the loop body calls [get (event->wd)]: those with a
    name that report a creation, or the deletion of a plain file. *)
Definition resolves (event : inotify_event) : bool :=
  negb (ev_len event =? 0)
  && (has_flag (ev_mask event) IN_CREATE
      || (has_flag (ev_mask event) IN_DELETE
          && negb (has_flag (ev_mask event) IN_ISDIR))).

(** The [for] loop over one buffer of events. *)
Fixpoint process_events (fuel : nat) (st : main_state)
    (events : list (inotify_event * Z)) : option (main_state * list action) :=
  match events with
  | [] => Some (st, [])
  | (event, added) :: rest =>
      match process_event fuel st event added with
      | None => None
      | Some (st1, out1) =>
          match process_events fuel st1 rest with
          | None => None
          | Some (st2, out2) => Some (st2, out1 ++ out2)
          end
      end
  end.

(** [main] up to the loop: the root directory is watched under the
    descriptor [wd] that [inotify_add_watch] returned. *)
Definition main_init (wd : Z) : main_state :=
  Build_main_state (insert Watch_empty (-1) "./tmp" wd) wd "" "" 0 0.

(** How the [while (run)] loop stands after a finite stretch of time. *)
Inductive loop_status : Type :=
  | Exited (st : main_state) (out : list action)   (* left the loop *)
  | Waiting (st : main_state) (out : list action)  (* back at [select] *)
  | Stuck.                          (* a [get] gave no answer within the fuel *)

(** [while (run) { select; read; for ... }].  Each round is given by the
    value of [run] when the condition is tested and by the events that
    [read] puts into the buffer (none when [read] fails). *)
Fixpoint main_loop (fuel : nat) (st : main_state) (out : list action)
    (rounds : list (bool * list (inotify_event * Z))) : loop_status :=
  match rounds with
  | [] => Waiting st out
  | (run, events) :: rest =>
      if run then
        match process_events fuel st events with
        | None => Stuck
        | Some (st1, out1) => main_loop fuel st1 (out ++ out1) rest
        end
      else Exited st out
  end.

(** ** Registries used in the examples *)

(** The root under descriptor 1, as [main] has it after its first
    [inotify_add_watch]. *)
Definition reg_root : Watch := insert Watch_empty (-1) "./tmp" 1.

(** The root and a directory "a" in it. *)
Definition reg_child : Watch := insert reg_root 1 "a" 2.

(** The root under descriptor 0. *)
Definition reg_root0 : Watch := insert Watch_empty (-1) "./tmp" 0.

(** A root "r" under descriptor 1 and its child "a" under descriptor 0. *)
Definition reg_child0 : Watch := insert (insert Watch_empty (-1) "r" 1) 1 "a" 0.

(** ** Events used in the examples *)

(** An event with a name; the kernel pads short names to 16 bytes. *)
Definition named_event (wd mask : Z) (n : string) : inotify_event :=
  Build_inotify_event wd mask 16 n.

(** The event queued when the event queue has overflowed. *)
Definition overflow_event : inotify_event :=
  Build_inotify_event (-1) IN_Q_OVERFLOW 0 "".

(** A directory "x" is made in the root, a file "f.txt" in "x", and "x" is
    deleted; [root] and [x] are the descriptors of the two directories, [a2]
    and [a3] stand for calls of [inotify_add_watch] that are not made. *)
Definition scenario (root x a2 a3 : Z) : list (inotify_event * Z) :=
  [ (named_event root (Z.lor IN_CREATE IN_ISDIR) "x", x);
    (named_event x IN_CREATE "f.txt", a2);
    (named_event root (Z.lor IN_DELETE IN_ISDIR) "x", a3) ].

(** "a" is made in the root and "b" in "a"; "b" is then moved out of "a"
    (which the watch mask does not report) and "a" is deleted. *)
Definition orphaning_events : list (inotify_event * Z) :=
  [ (named_event 1 (Z.lor IN_CREATE IN_ISDIR) "a", 2);
    (named_event 2 (Z.lor IN_CREATE IN_ISDIR) "b", 3);
    (named_event 1 (Z.lor IN_DELETE IN_ISDIR) "a", 0) ].

(** The state those events leave: descriptor 3 is there, its parent 2 is
    not. *)
Definition orphaned_state : main_state :=
  Build_main_state
    (Build_Watch (<[3 := Build_wd_elem 2 "b"]> (watch reg_root))
                 (<[Build_wd_elem 2 "b" := 3]> (rwatch reg_root)))
    2 "./tmp/a" "a" 0 1.

(** A file "f" is made in the directory watched under descriptor 3. *)
Definition orphan_file_event : inotify_event := named_event 3 IN_CREATE "f".

(** An event with descriptor -1 and the overflow bit that nevertheless names
    a new file. *)
Definition flagged_named_event : inotify_event :=
  named_event (-1) (Z.lor IN_Q_OVERFLOW IN_CREATE) "f".

(** ** Sequences of registry operations *)

Inductive op : Type :=
  | Insert (pd : Z) (name : string) (wd : Z)
  | Remove (pd : Z) (name : string).

Definition apply_op (w : Watch) (o : op) : Watch :=
  match o with
  | Insert pd0 n wd => insert w pd0 n wd
  | Remove pd0 n => (erase w pd0 n).2
  end.

(** The registries seen after each operation of a sequence, in order. *)
Fixpoint states_after (w : Watch) (ops : list op) : list Watch :=
  match ops with
  | [] => []
  | o :: rest => let w' := apply_op w o in w' :: states_after w' rest
  end.

Definition run (w : Watch) (ops : list op) : Watch := foldl apply_op w ops.

(** What [stats] is expected to show. *)
Definition counts_agree (w : Watch) : Prop := (stats w).1 = (stats w).2.

(** An operation that keeps the two maps in step: an [insert] of a
    descriptor and a (parent, name) pair that are both new, or of an entry
    exactly as it stands; an [erase] of a pair that is there, or of any pair
    while descriptor 0 is free. *)
Definition admissible (w : Watch) (o : op) : bool :=
  match o with
  | Insert pd0 n wd =>
      bool_decide (watch w !! wd = None ∧ rwatch w !! Build_wd_elem pd0 n = None)
      || bool_decide (watch w !! wd = Some (Build_wd_elem pd0 n))
  | Remove pd0 n =>
      bool_decide (is_Some (rwatch w !! Build_wd_elem pd0 n))
      || bool_decide (watch w !! 0 = None)
  end.

Fixpoint admissible_run (w : Watch) (ops : list op) : bool :=
  match ops with
  | [] => true
  | o :: rest => admissible w o && admissible_run (apply_op w o) rest
  end.

(** The reverse map is the exact inverse of the forward map. *)
Definition consistent (w : Watch) : Prop :=
  ∀ wd e, watch w !! wd = Some e ↔ rwatch w !! e = Some wd.

(** ** The parent chain *)

(** The element that [watch[wd]] refers to: the stored one, or the
    value-initialised one that [operator[]] puts there. *)
Definition entry_at (fw : gmap Z wd_elem) (wd : Z) : wd_elem :=
  default wd_elem_default (fw !! wd).

(** The descriptor [n] steps up the chain of parents of [wd]. *)
Fixpoint ancestor (fw : gmap Z wd_elem) (n : nat) (wd : Z) : Z :=
  match n with
  | O => wd
  | S n' => ancestor fw n' (pd (entry_at fw wd))
  end.

(** The chain of [wd] comes, after finitely many steps, to an entry whose
    parent is the root marker -1. *)
Definition reaches_root (fw : gmap Z wd_elem) (wd : Z) : Prop :=
  ∃ n, pd (entry_at fw (ancestor fw n wd)) = -1.

(** The name a walk of at most [fuel] entries assembles; [get] without the
    bookkeeping ([get_path] below relates the two). *)
Fixpoint chain_path (fw : gmap Z wd_elem) (fuel : nat) (wd : Z) : option string :=
  match fuel with
  | O => None
  | S fuel' =>
      let elem := entry_at fw wd in
      if pd elem =? -1 then Some (name elem)
      else match chain_path fw fuel' (pd elem) with
           | Some p => Some (p +:+ "/" +:+ name elem)
           | None => None
           end
  end.

(** The full path of a live descriptor, all of whose ancestors are live up
    to a root entry: the names along the chain, joined with "/". *)
Inductive full_path (fw : gmap Z wd_elem) : Z → string → Prop :=
  | full_path_root wd n :
      fw !! wd = Some (Build_wd_elem (-1) n) → full_path fw wd n
  | full_path_child wd pd0 n p :
      fw !! wd = Some (Build_wd_elem pd0 n) → pd0 ≠ -1 →
      full_path fw pd0 p → full_path fw wd (p +:+ "/" +:+ n).

(** "/tmp/root", "a" in it and "b" in "a". *)
Definition ops_abc : list op :=
  [Insert (-1) "/tmp/root" 1; Insert 1 "a" 2; Insert 2 "b" 3].

(** ** The range of [int] *)

Definition INT_MIN : Z := - 2^31.
Definition INT_MAX : Z := 2^31 - 1.

(** A value that an [int] holds. *)
Definition int_range (z : Z) : Prop := INT_MIN ≤ z ≤ INT_MAX.

(** Registries for two runs of calls: the pair (1, "a") inserted under
    descriptor 2 and then again under descriptor 3; and "/tmp/root", "a" and
    "b" inserted and then "a", the parent of "b", erased. *)
Definition ops_pair_twice : list op :=
  [Insert (-1) "r" 1; Insert 1 "a" 2; Insert 1 "a" 3].

Definition ops_parent_erased : list op :=
  [Insert (-1) "/tmp/root" 1; Insert 1 "a" 2; Insert 2 "b" 3; Remove 1 "a"].

(** ** Bookkeeping of the event loop *)

(** What one event adds to [total_dir_events]: the loop body tests the name
    length, then [IN_CREATE], and [IN_DELETE] only if [IN_CREATE] is not
    set. *)
Definition dir_delta (event : inotify_event) : Z :=
  if ev_len event =? 0 then 0
  else if has_flag (ev_mask event) IN_CREATE then
    (if has_flag (ev_mask event) IN_ISDIR then 1 else 0)
  else if has_flag (ev_mask event) IN_DELETE then
    (if has_flag (ev_mask event) IN_ISDIR then -1 else 0)
  else 0.

(** What one event adds to [total_file_events]. *)
Definition file_delta (event : inotify_event) : Z :=
  if ev_len event =? 0 then 0
  else if has_flag (ev_mask event) IN_CREATE then
    (if has_flag (ev_mask event) IN_ISDIR then 0 else 1)
  else if has_flag (ev_mask event) IN_DELETE then
    (if has_flag (ev_mask event) IN_ISDIR then 0 else -1)
  else 0.

(** The sum of [f] over the events of a list. *)
Definition net (f : inotify_event → Z) (events : list (inotify_event * Z)) : Z :=
  foldr (fun ea acc => f ea.1 + acc) 0 events.

(** Every entry of the forward map has a full path: its chain of parents
    stays inside the map and ends at a root entry. *)
Definition rooted (w : Watch) : Prop :=
  ∀ wd e, watch w !! wd = Some e → ∃ p, full_path (watch w) wd p.

(** The calls of [insert] and [erase] that the loop body makes for one
    event. *)
Definition registry_after (w : Watch) (event : inotify_event) (added : Z) : Watch :=
  if ev_len event =? 0 then w
  else if has_flag (ev_mask event) IN_CREATE then
    (if has_flag (ev_mask event) IN_ISDIR
     then insert w (ev_wd event) (ev_name event) added else w)
  else if has_flag (ev_mask event) IN_DELETE then
    (if has_flag (ev_mask event) IN_ISDIR
     then (erase w (ev_wd event) (ev_name event)).2 else w)
  else w.

Definition registry_run (w : Watch) (events : list (inotify_event * Z)) : Watch :=
  foldl (fun w ea => registry_after w ea.1 ea.2) w events.

(** An event as an orderly source delivers it: a creation or a file deletion
    comes under a descriptor that is in the registry; a new directory gets a
    descriptor that is not yet there, under a (parent, name) pair that is
    not yet there; a directory that is deleted is in the registry and no
    entry has it as its parent. *)
Definition orderly (w : Watch) (event : inotify_event) (added : Z) : bool :=
  if ev_len event =? 0 then true
  else if has_flag (ev_mask event) IN_CREATE then
    bool_decide (is_Some (watch w !! ev_wd event))
    && (if has_flag (ev_mask event) IN_ISDIR
        then bool_decide (watch w !! added = None ∧
                          rwatch w !! Build_wd_elem (ev_wd event) (ev_name event) = None)
        else true)
  else if has_flag (ev_mask event) IN_DELETE then
    (if has_flag (ev_mask event) IN_ISDIR
     then match rwatch w !! Build_wd_elem (ev_wd event) (ev_name event) with
          | Some wd' =>
              bool_decide (map_Forall (fun _ e => pd e = wd' → pd e = -1) (watch w))
          | None => false
          end
     else bool_decide (is_Some (watch w !! ev_wd event)))
  else true.

Fixpoint orderly_run (w : Watch) (events : list (inotify_event * Z)) : bool :=
  match events with
  | [] => true
  | (event, added) :: rest =>
      orderly w event added && orderly_run (registry_after w event added) rest
  end.

(** ** The event buffer *)

(** [EVENT_SIZE], the size of [struct inotify_event] without the name: four
    fields of 32 bits. *)
Definition EVENT_SIZE : Z := 16.

(** [NAME_MAX] of [<limits.h>] (Linux). *)
Definition NAME_MAX : Z := 255.

(** [EVENT_BUF_LEN], the size of [buffer]. *)
Definition EVENT_BUF_LEN : Z := 1024 * (EVENT_SIZE + NAME_MAX + 1).

(** The value an [int] takes when it is assigned an integer: the one of the
    same residue modulo 2^32 that an [int] can hold. *)
Definition to_int (z : Z) : Z := (z + 2^31) mod 2^32 - 2^31.

(** [[
    for (int i=0; i<length;) {
        event = the struct inotify_event at &buffer[ i ];
        ...
        i += EVENT_SIZE + event->len;
    }
    ]]
    [event_at i] is the event that the bytes of [buffer] from index [i] on
    are read as, [added_at i] what [inotify_add_watch] returns should that
    event make the loop call it.  A negative index is outside the buffer.
    [steps] bounds the number of rounds. *)
Fixpoint buffer_loop (steps fuel : nat) (event_at : Z → inotify_event)
    (added_at : Z → Z) (length i : Z) (st : main_state)
  : outcome (main_state * list action) :=
  if i <? length then
    match steps with
    | O => OutOfFuel
    | S steps' =>
        if i <? 0 then Undefined
        else
          let event := event_at i in
          match process_event fuel st event (added_at i) with
          | None => OutOfFuel
          | Some (st1, out1) =>
              match buffer_loop steps' fuel event_at added_at length
                      (to_int (i + EVENT_SIZE + ev_len event)) st1 with
              | Done (st2, out2) => Done (st2, out1 ++ out2)
              | Undefined => Undefined
              | OutOfFuel => OutOfFuel
              end
          end
    end
  else Done (st, []).

(** The events of a list lie back to back in the buffer from index [i]
    on. *)
Fixpoint laid_out (event_at : Z → inotify_event) (added_at : Z → Z) (i : Z)
    (events : list (inotify_event * Z)) : Prop :=
  match events with
  | [] => True
  | (event, added) :: rest =>
      event_at i = event ∧ added_at i = added ∧ 0 ≤ ev_len event ∧
      laid_out event_at added_at (i + EVENT_SIZE + ev_len event) rest
  end.

(** The number of bytes the events of a list take. *)
Definition buffer_size (events : list (inotify_event * Z)) : Z :=
  foldr (fun ea acc => EVENT_SIZE + ev_len ea.1 + acc) 0 events.

(** ** The end of [main] *)

(** What [main] prints after the loop: the two counters, the two sizes
    before [cleanup], the descriptors that [cleanup] deregisters, and the
    two sizes after it. *)
Record shutdown_report : Type := Build_shutdown_report {
  reported_dir_events : Z;
  reported_file_events : Z;
  stats_before : nat * nat;
  deregistered : list Z;
  stats_after : nat * nat
}.

(** The statements of [main] from [printf ("cleaning up\n")] on. *)
Definition main_shutdown (st : main_state) : outcome shutdown_report :=
  match cleanup (main_watch st) with
  | Done (rm, w') =>
      Done (Build_shutdown_report (total_dir_events st) (total_file_events st)
              (stats (main_watch st)) rm (stats w'))
  | Undefined => Undefined
  | OutOfFuel => OutOfFuel
  end.

(** ** Tactics *)

(** Evaluate the flag tests of an event whose mask is known. *)
Ltac eval_flags :=
  repeat match goal with
  | |- context [has_flag ?m ?b] =>
      let v := eval vm_compute in (has_flag m b) in
      change (has_flag m b) with v
  end.

(** Enter the loop body for an event built by [named_event]. *)
Ltac named_event_step :=
  unfold process_event;
  cbn [ev_len ev_mask ev_wd ev_name named_event];
  eval_flags; change (16 =? 0) with false; cbv iota.

(** ** Facts about the maps *)

Lemma map_index_Some `{Countable K} {V} (m : gmap K V) k d v :
  m !! k = Some v → map_index m k d = (v, m).
Proof. intros Hk. unfold map_index. by rewrite Hk. Qed.

Lemma map_index_None `{Countable K} {V} (m : gmap K V) k d :
  m !! k = None → map_index m k d = (d, <[k := d]> m).
Proof. intros Hk. unfold map_index. by rewrite Hk. Qed.

(** Two keys that [wd_elem::operator()] puts in neither order are the same
    key, so [rwatch] holds one value per (parent, name) pair. *)
Lemma wd_elem_less_equiv l r :
  wd_elem_less l r = false ∧ wd_elem_less r l = false ↔ l = r.
Proof.
  destruct l as [pl nl], r as [pr nr]. unfold wd_elem_less, String.ltb. simpl.
  split.
  - intros [H1 H2].
    destruct (Z.ltb_spec pl pr); [done|]. destruct (Z.ltb_spec pr pl); [done|].
    assert (pl = pr) as -> by lia. rewrite Z.eqb_refl in H1, H2. simpl in *.
    rewrite String.compare_antisym in H2.
    destruct (String.compare nl nr) eqn:Hc; simpl in *; try done.
    f_equal. by apply String.compare_eq_iff.
  - intros [= -> ->]. rewrite Z.ltb_irrefl, Z.eqb_refl. simpl.
    pose proof (String.compare_antisym nr nr) as Hanti.
    by destruct (String.compare nr nr).
Qed.

Lemma inverse_maps_size (fw : gmap Z wd_elem) :
  ∀ rw : gmap wd_elem Z,
    (∀ k e, fw !! k = Some e ↔ rw !! e = Some k) → size fw = size rw.
Proof.
  induction fw as [|k e m Hk IH] using map_ind; intros rw Hinv.
  - rewrite map_size_empty. symmetry. apply map_size_empty_iff.
    apply map_empty. intros e. destruct (rw !! e) as [k|] eqn:He; [|done].
    apply Hinv in He. by rewrite lookup_empty in He.
  - assert (Hrk : rw !! e = Some k) by (apply Hinv; apply lookup_insert_eq).
    rewrite map_size_insert_None by done.
    rewrite (IH (delete e rw)).
    + rewrite map_size_delete, Hrk. simpl.
      assert (size rw ≠ 0%nat) by (eapply map_size_ne_0_lookup_2; eauto).
      lia.
    + intros k' e'. split.
      * intros Hm. assert (k' ≠ k) by congruence.
        assert (Hr : rw !! e' = Some k')
          by (apply Hinv; by rewrite lookup_insert_ne).
        rewrite lookup_delete_ne; [done|]. congruence.
      * intros Hd. destruct (decide (e = e')) as [->|Hne].
        { by rewrite lookup_delete_eq in Hd. }
        rewrite lookup_delete_ne in Hd by done.
        apply Hinv in Hd. destruct (decide (k = k')) as [->|Hnk].
        { rewrite lookup_insert_eq in Hd. congruence. }
        by rewrite lookup_insert_ne in Hd.
Qed.

Lemma consistent_counts w : consistent w → counts_agree w.
Proof. intros Hc. apply inverse_maps_size, Hc. Qed.

Lemma consistent_empty : consistent Watch_empty.
Proof. intros wd e. simpl. by rewrite !lookup_empty. Qed.

(** ** What [insert] and [erase] do, case by case *)

Lemma insert_fresh_consistent w pd0 n wd :
  consistent w → watch w !! wd = None → rwatch w !! Build_wd_elem pd0 n = None →
  consistent (insert w pd0 n wd).
Proof.
  intros Hc Hw Hr k e. unfold insert. simpl. split.
  - intros Hk. destruct (decide (wd = k)) as [->|Hne].
    + rewrite lookup_insert_eq in Hk. injection Hk as <-. apply lookup_insert_eq.
    + rewrite lookup_insert_ne in Hk by done.
      rewrite lookup_insert_ne; [by apply Hc|].
      intros <-. apply Hc in Hk. congruence.
  - intros He. destruct (decide (Build_wd_elem pd0 n = e)) as [<-|Hne].
    + rewrite lookup_insert_eq in He. injection He as <-. apply lookup_insert_eq.
    + rewrite lookup_insert_ne in He by done.
      rewrite lookup_insert_ne; [by apply Hc|].
      intros <-. apply Hc in He. congruence.
Qed.

Lemma insert_same w pd0 n wd :
  consistent w → watch w !! wd = Some (Build_wd_elem pd0 n) →
  insert w pd0 n wd = w.
Proof.
  intros Hc Hw. destruct w as [fw rw]. unfold insert. simpl in *. f_equal.
  - by apply insert_id.
  - apply insert_id. by apply (Hc wd).
Qed.

(** [erase] of a pair that is in the reverse map. *)
Lemma erase_live w pd0 n wd :
  rwatch w !! Build_wd_elem pd0 n = Some wd →
  erase w pd0 n =
    (name (default wd_elem_default (watch w !! wd)), wd,
     Build_Watch (delete wd (watch w)) (delete (Build_wd_elem pd0 n) (rwatch w))).
Proof.
  intros Hr. unfold erase. rewrite (map_index_Some _ _ _ _ Hr).
  destruct (watch w !! wd) as [e|] eqn:Hw.
  - by rewrite (map_index_Some _ _ _ _ Hw).
  - rewrite (map_index_None _ _ _ Hw). simpl.
    by rewrite delete_insert_eq.
Qed.

(** [erase] of a pair that is not in the reverse map: [rwatch[pelem]] adds
    the pair with descriptor 0, and it is descriptor 0 that is erased. *)
Lemma erase_absent w pd0 n :
  rwatch w !! Build_wd_elem pd0 n = None →
  erase w pd0 n =
    (name (default wd_elem_default (watch w !! 0)), 0,
     Build_Watch (delete 0 (watch w)) (rwatch w)).
Proof.
  intros Hr. unfold erase. rewrite (map_index_None _ _ _ Hr).
  rewrite delete_insert_id by done.
  destruct (watch w !! 0) as [e|] eqn:Hw.
  - by rewrite (map_index_Some _ _ _ _ Hw).
  - rewrite (map_index_None _ _ _ Hw). simpl.
    by rewrite delete_insert_eq.
Qed.

Lemma erase_live_consistent w pd0 n wd :
  consistent w → rwatch w !! Build_wd_elem pd0 n = Some wd →
  consistent (erase w pd0 n).2.
Proof.
  intros Hc Hr. rewrite (erase_live _ _ _ _ Hr). simpl.
  assert (Hw : watch w !! wd = Some (Build_wd_elem pd0 n)) by (by apply Hc).
  intros k e. simpl. split.
  - intros Hk. destruct (decide (wd = k)) as [->|Hne].
    { by rewrite lookup_delete_eq in Hk. }
    rewrite lookup_delete_ne in Hk by done.
    rewrite lookup_delete_ne; [by apply Hc|].
    intros <-. apply Hc in Hk. congruence.
  - intros He. destruct (decide (Build_wd_elem pd0 n = e)) as [<-|Hne].
    { by rewrite lookup_delete_eq in He. }
    rewrite lookup_delete_ne in He by done.
    rewrite lookup_delete_ne; [by apply Hc|].
    intros <-. apply Hc in He. congruence.
Qed.

Lemma erase_absent_free w pd0 n :
  rwatch w !! Build_wd_elem pd0 n = None → watch w !! 0 = None →
  erase w pd0 n = ("", 0, w).
Proof.
  intros Hr Hw. rewrite (erase_absent _ _ _ Hr), Hw. simpl.
  rewrite delete_id by done. by destruct w.
Qed.

Lemma admissible_consistent w o :
  consistent w → admissible w o = true → consistent (apply_op w o).
Proof.
  intros Hc Ha. destruct o as [pd0 n wd|pd0 n]; simpl in *.
  - apply orb_true_iff in Ha as [Ha|Ha]; apply bool_decide_eq_true in Ha.
    + destruct Ha. by apply insert_fresh_consistent.
    + by rewrite insert_same.
  - destruct (rwatch w !! Build_wd_elem pd0 n) as [wd|] eqn:Hr.
    + by eapply erase_live_consistent.
    + apply orb_true_iff in Ha as [Ha|Ha]; apply bool_decide_eq_true in Ha.
      * by destruct Ha.
      * by rewrite erase_absent_free.
Qed.

Lemma admissible_run_states w ops :
  consistent w → admissible_run w ops = true →
  Forall consistent (states_after w ops).
Proof.
  revert w. induction ops as [|o rest IH]; intros w Hc Ha; simpl in *.
  - constructor.
  - apply andb_true_iff in Ha as [Ho Hrest].
    pose proof (admissible_consistent _ _ Hc Ho). constructor; auto.
Qed.

Lemma admissible_run_consistent w ops :
  consistent w → admissible_run w ops = true → consistent (run w ops).
Proof.
  revert w. induction ops as [|o rest IH]; intros w Hc Ha; simpl in *; [done|].
  apply andb_true_iff in Ha as [Ho Hrest].
  apply IH; [by apply admissible_consistent|done].
Qed.

(** ** The walk of [get] *)

Lemma entry_at_Some fw wd e : fw !! wd = Some e → entry_at fw wd = e.
Proof. intros Hw. unfold entry_at. by rewrite Hw. Qed.

Lemma entry_at_None fw wd : fw !! wd = None → entry_at fw wd = wd_elem_default.
Proof. intros Hw. unfold entry_at. by rewrite Hw. Qed.

(** Putting the default element where there was none changes no reading. *)
Lemma entry_at_insert_default fw wd k :
  fw !! wd = None → entry_at (<[wd := wd_elem_default]> fw) k = entry_at fw k.
Proof.
  intros Hw. unfold entry_at. destruct (decide (wd = k)) as [->|Hne].
  - by rewrite lookup_insert_eq, Hw.
  - by rewrite lookup_insert_ne.
Qed.

Lemma chain_path_ext fw1 fw2 :
  (∀ k, entry_at fw1 k = entry_at fw2 k) →
  ∀ fuel wd, chain_path fw1 fuel wd = chain_path fw2 fuel wd.
Proof.
  intros Hext fuel. induction fuel as [|fuel IH]; intros wd; simpl; [done|].
  rewrite Hext. destruct (pd (entry_at fw2 wd) =? -1); [done|]. by rewrite IH.
Qed.

(** One step of [get], spelled out. *)
Lemma get_step fuel w wd :
  get (S fuel) w wd =
    let w1 := Build_Watch (map_index (watch w) wd wd_elem_default).2 (rwatch w) in
    let elem := entry_at (watch w) wd in
    if pd elem =? -1 then Some (name elem, w1)
    else match get fuel w1 (pd elem) with
         | Some (p, w2) => Some (p +:+ "/" +:+ name elem, w2)
         | None => None
         end.
Proof.
  simpl. unfold map_index, entry_at. by destruct (watch w !! wd).
Qed.

Lemma map_index_entry_at fw wd k :
  entry_at (map_index fw wd wd_elem_default).2 k = entry_at fw k.
Proof.
  unfold map_index. destruct (fw !! wd) eqn:Hw; simpl; [done|].
  by apply entry_at_insert_default.
Qed.

(** The string [get] returns is the one the chain determines. *)
Lemma get_path fuel : ∀ w wd,
  fst <$> get fuel w wd = chain_path (watch w) fuel wd.
Proof.
  induction fuel as [|fuel IH]; intros w wd; [done|].
  rewrite get_step. cbn zeta. cbn [chain_path].
  destruct (pd (entry_at (watch w) wd) =? -1); [done|].
  specialize (IH (Build_Watch (map_index (watch w) wd wd_elem_default).2 (rwatch w))
                 (pd (entry_at (watch w) wd))).
  cbn [watch] in IH.
  rewrite (chain_path_ext _ _ (map_index_entry_at (watch w) wd)) in IH.
  rewrite <- IH. destruct (get fuel _ _) as [[p w2]|]; done.
Qed.

(** [get] erases and overwrites nothing, and leaves [rwatch] alone. *)
Lemma get_keeps_entries fuel : ∀ w wd p w',
  get fuel w wd = Some (p, w') →
  rwatch w' = rwatch w ∧
  (∀ k e, watch w !! k = Some e → watch w' !! k = Some e) ∧
  watch w' !! wd = Some (entry_at (watch w) wd).
Proof.
  induction fuel as [|fuel IH]; intros w wd p w' Hget; [done|].
  rewrite get_step in Hget. cbn zeta in Hget.
  assert (Hidx : ∀ k e, watch w !! k = Some e →
            (map_index (watch w) wd wd_elem_default).2 !! k = Some e).
  { intros k e Hk. unfold map_index. destruct (watch w !! wd) eqn:Hw; [done|].
    simpl. rewrite lookup_insert_ne; [done|]. congruence. }
  assert (Hwd : (map_index (watch w) wd wd_elem_default).2 !! wd
                = Some (entry_at (watch w) wd)).
  { unfold map_index, entry_at. destruct (watch w !! wd) eqn:Hw; simpl; [done|].
    apply lookup_insert_eq. }
  destruct (pd (entry_at (watch w) wd) =? -1).
  - injection Hget as <- <-. simpl. auto.
  - destruct (get fuel _ _) as [[p0 w2]|] eqn:Hrec; [|done].
    injection Hget as <- <-.
    apply IH in Hrec as (Hr & Hkeep & _). simpl in *. auto.
Qed.

Lemma chain_path_reaches fw fuel : ∀ wd p,
  chain_path fw fuel wd = Some p → reaches_root fw wd.
Proof.
  induction fuel as [|fuel IH]; intros wd p Hp; [done|]. simpl in Hp.
  destruct (pd (entry_at fw wd) =? -1) eqn:Hroot.
  - exists 0%nat. simpl. lia.
  - destruct (chain_path fw fuel _) as [p0|] eqn:Hrec; [|done].
    destruct (IH _ _ Hrec) as [n Hn]. by exists (S n).
Qed.

Lemma reaches_chain_path fw n : ∀ wd,
  pd (entry_at fw (ancestor fw n wd)) = -1 →
  ∀ fuel, (n < fuel)%nat → is_Some (chain_path fw fuel wd).
Proof.
  induction n as [|n IH]; intros wd Hn fuel Hlt;
    (destruct fuel as [|fuel]; [lia|]); simpl in *.
  - rewrite Hn. simpl. eauto.
  - destruct (pd (entry_at fw wd) =? -1); [eauto|].
    destruct (IH _ Hn fuel) as [p Hp]; [lia|]. rewrite Hp. eauto.
Qed.

Lemma get_terminates_iff w wd :
  (∃ fuel r, get fuel w wd = Some r) ↔ reaches_root (watch w) wd.
Proof.
  split.
  - intros (fuel & [p w'] & Hget).
    apply (chain_path_reaches _ fuel wd p). rewrite <- get_path, Hget. done.
  - intros [n Hn].
    destruct (reaches_chain_path _ _ _ Hn (S n)) as [p Hp]; [lia|].
    rewrite <- get_path in Hp. exists (S n).
    destruct (get (S n) w wd) as [r|]; [eauto|done].
Qed.

Lemma get_diverges w wd :
  ¬ reaches_root (watch w) wd → ∀ fuel, get fuel w wd = None.
Proof.
  intros Hno fuel. destruct (get fuel w wd) as [r|] eqn:Hget; [|done].
  exfalso. apply Hno, get_terminates_iff. eauto.
Qed.

(** On a chain of live entries up to a root entry [get] returns the full
    path and leaves the registry as it was. *)
Lemma get_full_path w wd p :
  full_path (watch w) wd p →
  ∃ fuel, ∀ fuel', (fuel ≤ fuel')%nat → get fuel' w wd = Some (p, w).
Proof.
  induction 1 as [wd n Hw|wd pd0 n p Hw Hne _ [fuel IH]].
  - exists 1%nat. intros [|fuel'] Hle; [lia|].
    rewrite get_step. cbn zeta. rewrite (entry_at_Some _ _ _ Hw). simpl.
    rewrite (map_index_Some _ _ _ _ Hw). by destruct w.
  - exists (S fuel). intros [|fuel'] Hle; [lia|].
    rewrite get_step. cbn zeta. rewrite (entry_at_Some _ _ _ Hw). simpl.
    rewrite (map_index_Some _ _ _ _ Hw). simpl.
    destruct (pd0 =? -1) eqn:Hpd; [lia|].
    replace (Build_Watch (watch w) (rwatch w)) with w by (by destruct w).
    rewrite IH by lia. done.
Qed.

(** ** The two counts *)

(** C1, as stated, fails: with no restriction on the arguments, a second
    [insert] under a descriptor that is already there overwrites the forward
    entry and adds a reverse one, and [stats] shows 1 against 2. *)
Lemma C1_counts_diverge :
  stats (run Watch_empty [Insert (-1) "./tmp" 1; Insert 1 "a" 1]) = (1%nat, 2%nat) ∧
  ¬ Forall counts_agree
      (states_after Watch_empty [Insert (-1) "./tmp" 1; Insert 1 "a" 1]).
Proof.
  split; [vm_compute; reflexivity|].
  intros H. apply Forall_cons in H as [_ H]. apply Forall_cons in H as [H _].
  vm_compute in H. discriminate.
Qed.

(** C1, amended: along every sequence of [insert] and [erase] calls, started
    on the empty registry, in which each [insert] brings a descriptor and a
    (parent, name) pair that are both new (or repeats an entry as it stands)
    and each [erase] names a pair that is there (or happens while descriptor
    0 is free), the forward and the reverse count are equal after each
    call. *)
Theorem C1_counts_agree_admissible (ops : list op) :
  admissible_run Watch_empty ops = true →
  Forall counts_agree (states_after Watch_empty ops).
Proof.
  intros Ha. eapply Forall_impl.
  - apply admissible_run_states; [apply consistent_empty|exact Ha].
  - apply consistent_counts.
Qed.

Lemma C1_counts_agree_witness :
  admissible_run Watch_empty
    [Insert (-1) "./tmp" 1; Insert 1 "a" 2; Remove 1 "a"; Remove 1 "b"] = true ∧
  Forall counts_agree
    (states_after Watch_empty
       [Insert (-1) "./tmp" 1; Insert 1 "a" 2; Remove 1 "a"; Remove 1 "b"]).
Proof.
  split; [reflexivity|].
  apply (C1_counts_agree_admissible
           [Insert (-1) "./tmp" 1; Insert 1 "a" 2; Remove 1 "a"; Remove 1 "b"]).
  reflexivity.
Defined.

(** ** A descriptor inserted twice *)

(** C10, as stated, fails when the pair being inserted is itself in the
    reverse map already: descriptor 2 is there under (1, "a"), the pair
    (1, "b") belongs to descriptor 3, and after [insert (1, "b", 2)] both
    maps still have three entries. *)
Lemma C10_same_count_when_pair_present :
  consistent (insert reg_child 1 "b" 3) ∧
  watch (insert reg_child 1 "b" 3) !! 2 = Some (Build_wd_elem 1 "a") ∧
  Build_wd_elem 1 "a" ≠ Build_wd_elem 1 "b" ∧
  stats (insert (insert reg_child 1 "b" 3) 1 "b" 2) = (3%nat, 3%nat).
Proof.
  split; [|split; [|split]].
  - apply (admissible_run_consistent Watch_empty
             [Insert (-1) "./tmp" 1; Insert 1 "a" 2; Insert 1 "b" 3]);
      [apply consistent_empty|reflexivity].
  - vm_compute. reflexivity.
  - discriminate.
  - vm_compute. reflexivity.
Qed.

(** C10, amended: on a registry whose reverse map is the inverse of its
    forward map, [insert] of a descriptor that is there under a different
    (parent, name) pair, the new pair being in the reverse map under no
    descriptor, overwrites the forward entry and keeps the old reverse entry,
    so that the reverse map has exactly one entry more than the forward
    map. *)
Theorem C10_insert_live_descriptor w pd0 n wd old :
  consistent w →
  watch w !! wd = Some old →
  old ≠ Build_wd_elem pd0 n →
  rwatch w !! Build_wd_elem pd0 n = None →
  watch (insert w pd0 n wd) !! wd = Some (Build_wd_elem pd0 n) ∧
  rwatch (insert w pd0 n wd) !! old = Some wd ∧
  (stats (insert w pd0 n wd)).2 = S (stats (insert w pd0 n wd)).1.
Proof.
  intros Hc Hw Hne Hr. unfold insert, stats. simpl. split; [|split].
  - apply lookup_insert_eq.
  - rewrite lookup_insert_ne by done. by apply Hc.
  - rewrite map_size_insert_None by done.
    rewrite map_size_insert_Some by eauto.
    f_equal. symmetry. by apply consistent_counts.
Qed.

Lemma C10_insert_live_descriptor_witness :
  watch (insert reg_child 1 "b" 2) !! 2 = Some (Build_wd_elem 1 "b") ∧
  rwatch (insert reg_child 1 "b" 2) !! Build_wd_elem 1 "a" = Some 2 ∧
  (stats (insert reg_child 1 "b" 2)).2 = S (stats (insert reg_child 1 "b" 2)).1.
Proof.
  apply (C10_insert_live_descriptor reg_child 1 "b" 2 (Build_wd_elem 1 "a")).
  - apply (admissible_run_consistent Watch_empty
             [Insert (-1) "./tmp" 1; Insert 1 "a" 2]);
      [apply consistent_empty|reflexivity].
  - reflexivity.
  - discriminate.
  - reflexivity.
Defined.

(** ** Pairs that are not in the registry *)

(** C3, as stated, fails: nothing reports an unknown pair.  On the registry
    that holds the root under descriptor 1, the reverse lookup of
    (1, "nonexistent") answers 0 and leaves a second reverse entry behind,
    and [erase] answers 0 with an empty name; with the root under descriptor
    0, [erase] of the unknown pair (5, "x") takes the root's forward entry
    away, and the counts go from (1, 1) to (0, 1). *)
Lemma C3_unknown_pair_not_reported :
  rwatch reg_root !! Build_wd_elem 1 "nonexistent" = None ∧
  (get_wd reg_root 1 "nonexistent").1 = 0 ∧
  stats (get_wd reg_root 1 "nonexistent").2 = (1%nat, 2%nat) ∧
  erase reg_root 1 "nonexistent" = ("", 0, reg_root) ∧
  rwatch reg_root0 !! Build_wd_elem 5 "x" = None ∧
  stats reg_root0 = (1%nat, 1%nat) ∧
  (erase reg_root0 5 "x").1 = ("./tmp", 0) ∧
  stats (erase reg_root0 5 "x").2 = (0%nat, 1%nat).
Proof. repeat split; vm_compute; reflexivity. Qed.

(** C3, amended: for every (parent, name) pair that is not in the reverse
    map, neither call fails.  The reverse lookup returns descriptor 0 and
    leaves the pair in the reverse map under 0; [erase] returns descriptor 0
    with the name stored under descriptor 0 (empty if there is none), leaves
    the reverse map as it was and takes descriptor 0 out of the forward map,
    so that the counts are unchanged when descriptor 0 is free. *)
Theorem C3_unknown_pair w pd0 n :
  rwatch w !! Build_wd_elem pd0 n = None →
  get_wd w pd0 n =
    (0, Build_Watch (watch w) (<[Build_wd_elem pd0 n := 0]> (rwatch w))) ∧
  erase w pd0 n =
    (name (entry_at (watch w) 0), 0,
     Build_Watch (delete 0 (watch w)) (rwatch w)) ∧
  (watch w !! 0 = None → stats (erase w pd0 n).2 = stats w).
Proof.
  intros Hr. split; [|split].
  - unfold get_wd. by rewrite (map_index_None _ _ _ Hr).
  - by apply erase_absent.
  - intros H0. by rewrite erase_absent_free.
Qed.

Lemma C3_unknown_pair_witness :
  rwatch reg_root !! Build_wd_elem 1 "nonexistent" = None ∧
  (get_wd reg_root 1 "nonexistent").1 = 0 ∧
  (erase reg_root 1 "nonexistent").1 = ("", 0) ∧
  stats (erase reg_root 1 "nonexistent").2 = stats reg_root.
Proof.
  destruct (C3_unknown_pair reg_root 1 "nonexistent" eq_refl) as (Hg & He & Hs).
  split; [reflexivity|]. split; [by rewrite Hg|]. split; [by rewrite He|].
  apply Hs. reflexivity.
Defined.

(** ** Resolving a descriptor *)

Lemma ancestor_zero_absent fw n : fw !! 0 = None → ancestor fw n 0 = 0.
Proof.
  intros H0. induction n as [|n IH]; [done|]. simpl.
  by rewrite (entry_at_None _ _ H0).
Qed.

Lemma zero_absent_no_root fw : fw !! 0 = None → ¬ reaches_root fw 0.
Proof.
  intros H0 [n Hn]. rewrite (ancestor_zero_absent _ _ H0) in Hn.
  by rewrite (entry_at_None _ _ H0) in Hn.
Qed.

(** From a descriptor that is not there the walk goes on at descriptor 0. *)
Lemma absent_reaches_iff fw wd :
  fw !! wd = None → reaches_root fw wd ↔ reaches_root fw 0.
Proof.
  intros Hw. split; intros [n Hn].
  - destruct n as [|n]; simpl in Hn.
    + by rewrite (entry_at_None _ _ Hw) in Hn.
    + rewrite (entry_at_None _ _ Hw) in Hn. by exists n.
  - exists (S n). simpl. by rewrite (entry_at_None _ _ Hw).
Qed.

(** C4, as stated, fails for a descriptor that is not in the forward map:
    [get] reports nothing and changes the registry.  With the root under
    descriptor 0, [get (7)] returns "./tmp/" and leaves descriptor 7 in the
    forward map; with the root under descriptor 1, [get (7)] puts 7 and then
    0 into the map and goes on calling itself on 0. *)
Lemma C4_unknown_descriptor_not_reported :
  watch reg_root0 !! 7 = None ∧
  get 2 reg_root0 7 =
    Some ("./tmp/",
          Build_Watch (<[7 := wd_elem_default]> (watch reg_root0)) (rwatch reg_root0)) ∧
  Build_Watch (<[7 := wd_elem_default]> (watch reg_root0)) (rwatch reg_root0)
    ≠ reg_root0 ∧
  watch reg_root !! 7 = None ∧
  ∀ fuel, get fuel reg_root 7 = None.
Proof.
  split; [reflexivity|]. split; [vm_compute; reflexivity|].
  split; [intros H; apply (f_equal (fun w => watch w !! 7)) in H;
          vm_compute in H; discriminate|].
  split; [reflexivity|].
  apply get_diverges. rewrite absent_reaches_iff by reflexivity.
  apply zero_absent_no_root. reflexivity.
Qed.

(** C4, amended: for a descriptor whose entry and whose ancestors' entries
    are all in the forward map, up to a root entry, [get] returns the names
    along the chain joined with "/" and leaves the registry as it was.  For a
    descriptor that is not in the forward map [get] does not fail: whenever
    it returns, the descriptor has been put into the forward map with parent
    0 and an empty name, and the string ends in the separator, the walk
    having gone on from descriptor 0. *)
Theorem C4_get_resolves w wd :
  (∀ p, full_path (watch w) wd p →
        ∃ fuel, ∀ fuel', (fuel ≤ fuel')%nat → get fuel' w wd = Some (p, w)) ∧
  (watch w !! wd = None →
   ∀ fuel p w', get fuel w wd = Some (p, w') →
     watch w' !! wd = Some wd_elem_default ∧
     ∃ p0, chain_path (watch w) (pred fuel) 0 = Some p0 ∧ p = p0 +:+ "/" +:+ "").
Proof.
  split; [intros p; apply get_full_path|].
  intros Hw fuel p w' Hget. split.
  - destruct (get_keeps_entries _ _ _ _ _ Hget) as (_ & _ & Hwd).
    by rewrite (entry_at_None _ _ Hw) in Hwd.
  - pose proof (get_path fuel w wd) as Hp. rewrite Hget in Hp.
    destruct fuel as [|fuel]; [done|]. simpl in Hp.
    rewrite (entry_at_None _ _ Hw) in Hp. simpl in Hp.
    destruct (chain_path (watch w) fuel 0) as [p0|] eqn:Hc; [|done].
    exists p0. split; [done|]. congruence.
Qed.

Lemma C4_get_resolves_witness :
  (∃ fuel, ∀ fuel', (fuel ≤ fuel')%nat →
     get fuel' reg_child 2 = Some ("./tmp/a", reg_child)) ∧
  watch (Build_Watch (<[7 := wd_elem_default]> (watch reg_root0)) (rwatch reg_root0))
    !! 7 = Some wd_elem_default.
Proof.
  split.
  - apply (proj1 (C4_get_resolves reg_child 2) "./tmp/a").
    apply (full_path_child _ 2 1 "a" "./tmp"); [reflexivity|lia|].
    apply full_path_root. reflexivity.
  - apply (proj2 (C4_get_resolves reg_root0 7) eq_refl 2%nat "./tmp/").
    vm_compute. reflexivity.
Defined.

(** C9, as stated, fails in its last part: a descriptor that is not in the
    forward map need not make the recursion run on when descriptor 0 is no
    root entry.  Here 0 is the child "a" of the root 1, descriptor 5 is not
    there, and [get (5)] returns "r/a/". *)
Lemma C9_absent_descriptor_may_terminate :
  watch reg_child0 !! 5 = None ∧
  (∀ e, watch reg_child0 !! 0 = Some e → pd e ≠ -1) ∧
  (fst <$> get 3 reg_child0 5) = Some "r/a/" ∧
  ¬ (∀ fuel, get fuel reg_child0 5 = None).
Proof.
  split; [reflexivity|]. split; [|split].
  - intros e He. vm_compute in He. injection He as <-. simpl. lia.
  - vm_compute. reflexivity.
  - intros H. specialize (H 3%nat). vm_compute in H. discriminate.
Qed.

(** C9, amended: [get (wd)] returns for exactly those descriptors whose chain
    of parents through the forward map (a descriptor that is not there
    reading as the entry with parent 0 that the lookup inserts) comes in
    finitely many steps to an entry with parent -1; for any other descriptor
    the recursion does not end, in particular for a descriptor that is not
    in the forward map when the chain of descriptor 0 comes to no such
    entry, as when descriptor 0 is not there either. *)
Theorem C9_get_terminates_exactly w wd :
  ((∃ fuel r, get fuel w wd = Some r) ↔ reaches_root (watch w) wd) ∧
  (¬ reaches_root (watch w) wd → ∀ fuel, get fuel w wd = None) ∧
  (watch w !! wd = None → ¬ reaches_root (watch w) 0 →
   ∀ fuel, get fuel w wd = None) ∧
  (watch w !! wd = None → watch w !! 0 = None → ∀ fuel, get fuel w wd = None).
Proof.
  split; [apply get_terminates_iff|]. split; [apply get_diverges|]. split.
  - intros Hw H0. apply get_diverges. by rewrite absent_reaches_iff.
  - intros Hw H0. apply get_diverges. rewrite absent_reaches_iff by done.
    by apply zero_absent_no_root.
Qed.

Lemma C9_get_terminates_exactly_witness :
  (∃ fuel r, get fuel reg_child 2 = Some r) ∧
  (∀ fuel, get fuel reg_root 7 = None) ∧
  (∀ fuel, get fuel reg_root 8 = None) ∧
  (∀ fuel, get fuel reg_root 9 = None).
Proof.
  assert (H0 : ¬ reaches_root (watch reg_root) 0)
    by (apply zero_absent_no_root; reflexivity).
  split; [|split; [|split]].
  - apply (proj1 (C9_get_terminates_exactly reg_child 2)).
    exists 1%nat. reflexivity.
  - apply (proj1 (proj2 (C9_get_terminates_exactly reg_root 7))).
    by rewrite absent_reaches_iff.
  - apply (proj1 (proj2 (proj2 (C9_get_terminates_exactly reg_root 8))));
      [reflexivity|exact H0].
  - apply (proj2 (proj2 (proj2 (C9_get_terminates_exactly reg_root 9))));
      reflexivity.
Defined.

(** ** Round trip *)

Lemma get_root fuel w wd n :
  watch w !! wd = Some (Build_wd_elem (-1) n) →
  get (S fuel) w wd = Some (n, w).
Proof.
  intros Hw. rewrite get_step. cbn zeta.
  rewrite (entry_at_Some _ _ _ Hw), (map_index_Some _ _ _ _ Hw). simpl.
  by destruct w.
Qed.

Lemma get_child fuel w wd pd0 n :
  watch w !! wd = Some (Build_wd_elem pd0 n) → pd0 ≠ -1 →
  get (S fuel) w wd =
    match get fuel w pd0 with
    | Some (p, w') => Some (p +:+ "/" +:+ n, w')
    | None => None
    end.
Proof.
  intros Hw Hne. rewrite get_step. cbn zeta.
  rewrite (entry_at_Some _ _ _ Hw), (map_index_Some _ _ _ _ Hw). simpl.
  destruct (pd0 =? -1) eqn:Hpd; [lia|]. by destruct w.
Qed.

Lemma run_app w a b : run w (a ++ b) = run (run w a) b.
Proof. apply foldl_app. Qed.

Lemma admissible_run_app a : ∀ w b,
  admissible_run w (a ++ b) = admissible_run w a && admissible_run (run w a) b.
Proof.
  induction a as [|o a IH]; intros w b; simpl; [done|].
  by rewrite IH, andb_assoc.
Qed.

(** An entry stays as long as its pair is not erased. *)
Lemma entry_persists post : ∀ w wd e,
  consistent w → watch w !! wd = Some e →
  admissible_run w post = true → Remove (pd e) (name e) ∉ post →
  watch (run w post) !! wd = Some e.
Proof.
  induction post as [|o post IH]; intros w wd e Hc Hw Ha Hnot; [done|].
  cbn [admissible_run] in Ha. apply andb_true_iff in Ha as [Ho Hrest].
  apply not_elem_of_cons in Hnot as [Hne Hnot].
  change (run w (o :: post)) with (run (apply_op w o) post).
  apply IH; [by apply admissible_consistent| |done|done].
  destruct o as [pd1 n1 wd1|pd1 n1]; cbn [apply_op admissible] in *.
  - apply orb_true_iff in Ho as [Ho|Ho]; apply bool_decide_eq_true in Ho.
    + destruct Ho as [Hfw _]. unfold insert. simpl.
      rewrite lookup_insert_ne; [done|]. congruence.
    + by rewrite insert_same.
  - destruct (rwatch w !! Build_wd_elem pd1 n1) as [wd1|] eqn:Hr.
    + rewrite (erase_live _ _ _ _ Hr). simpl.
      rewrite lookup_delete_ne; [done|]. intros ->.
      apply Hc in Hr. rewrite Hw in Hr. injection Hr as Heq.
      apply Hne. by rewrite Heq.
    + apply orb_true_iff in Ho as [Ho|Ho]; apply bool_decide_eq_true in Ho.
      * by destruct Ho.
      * by rewrite erase_absent_free.
Qed.

(** C5, as stated, fails.  After [insert (-1, "r", 1)], [insert (1, "a", 2)]
    and [insert (1, "a", 3)] the entry inserted with (1, "a", 2) has not been
    erased, and the reverse lookup of (1, "a") answers 3.  After "/tmp/root",
    "a" and "b" have been inserted under 1, 2 and 3 and "a" has been erased,
    a run in which every call keeps the registry's contract, the entry
    (2, "b", 3) has not been erased and is still found under 3, but its
    parent is gone and [get (3)] returns nothing, whatever the depth. *)
Lemma C5_round_trip_needs_contract_and_parent :
  (Remove 1 "a" ∉ [Insert 1 "a" 3]) ∧
  watch (run Watch_empty ops_pair_twice) !! 2 = Some (Build_wd_elem 1 "a") ∧
  (get_wd (run Watch_empty ops_pair_twice) 1 "a").1 = 3 ∧
  admissible_run Watch_empty ops_parent_erased = true ∧
  (Remove 2 "b" ∉ [Remove 1 "a"]) ∧
  (get_wd (run Watch_empty ops_parent_erased) 2 "b").1 = 3 ∧
  watch (run Watch_empty ops_parent_erased) !! 2 = None ∧
  (∀ fuel, get fuel (run Watch_empty ops_parent_erased) 3 = None) ∧
  (∀ fuel, get fuel (run Watch_empty ops_parent_erased) 2 = None).
Proof.
  assert (H0 : ¬ reaches_root (watch (run Watch_empty ops_parent_erased)) 0)
    by (apply zero_absent_no_root; reflexivity).
  assert (H2 : ¬ reaches_root (watch (run Watch_empty ops_parent_erased)) 2)
    by (by rewrite absent_reaches_iff).
  split; [intros H; apply list_elem_of_singleton in H; discriminate|].
  split; [vm_compute; reflexivity|]. split; [vm_compute; reflexivity|].
  split; [vm_compute; reflexivity|].
  split; [intros H; apply list_elem_of_singleton in H; discriminate|].
  split; [vm_compute; reflexivity|]. split; [vm_compute; reflexivity|].
  split; [|by apply get_diverges].
  apply get_diverges. intros [n Hn].
  assert (He : entry_at (watch (run Watch_empty ops_parent_erased)) 3
               = Build_wd_elem 2 "b") by (vm_compute; reflexivity).
  destruct n as [|n]; cbn [ancestor] in Hn; rewrite He in Hn; cbn [pd] in Hn.
  - lia.
  - apply H2. by exists n.
Qed.

(** C5, amended: along a sequence of calls, started on the empty registry,
    in which each [insert] brings a descriptor and a (parent, name) pair that
    are both new (or repeats an entry as it stands) and each [erase] names a
    pair that is there (or happens while descriptor 0 is free), an entry
    inserted with (parent, name, descriptor) and not erased since is found by
    the reverse lookup under exactly that descriptor, the lookup changing
    nothing; [get] of the descriptor returns the name itself for a root
    entry, and otherwise, whenever [get] of the parent returns, what that
    returns, then "/", then the name; it does return so, leaving the registry
    as it was, when the parent has a full path.  In particular, with
    "/tmp/root" under 1, "a" under 2 in it and "b" under 3 in "a", [get (3)]
    is "/tmp/root/a/b". *)
Theorem C5_round_trip :
  (∀ pre post pd0 n wd,
     admissible_run Watch_empty (pre ++ Insert pd0 n wd :: post) = true →
     Remove pd0 n ∉ post →
     get_wd (run Watch_empty (pre ++ Insert pd0 n wd :: post)) pd0 n
       = (wd, run Watch_empty (pre ++ Insert pd0 n wd :: post)) ∧
     (pd0 = -1 → ∀ fuel,
        get (S fuel) (run Watch_empty (pre ++ Insert pd0 n wd :: post)) wd
          = Some (n, run Watch_empty (pre ++ Insert pd0 n wd :: post))) ∧
     (pd0 ≠ -1 → ∀ fuel p w',
        get fuel (run Watch_empty (pre ++ Insert pd0 n wd :: post)) pd0
          = Some (p, w') →
        get (S fuel) (run Watch_empty (pre ++ Insert pd0 n wd :: post)) wd
          = Some (p +:+ "/" +:+ n, w')) ∧
     (pd0 ≠ -1 → ∀ p,
        full_path (watch (run Watch_empty (pre ++ Insert pd0 n wd :: post))) pd0 p →
        ∃ fuel, ∀ fuel', (fuel ≤ fuel')%nat →
          get fuel' (run Watch_empty (pre ++ Insert pd0 n wd :: post)) wd
            = Some (p +:+ "/" +:+ n,
                    run Watch_empty (pre ++ Insert pd0 n wd :: post)))) ∧
  get 3 (run Watch_empty ops_abc) 3 = Some ("/tmp/root/a/b", run Watch_empty ops_abc).
Proof.
  split; [|vm_compute; reflexivity].
  intros pre post pd0 n wd Ha Hnot.
  assert (Hc : consistent (run Watch_empty (pre ++ Insert pd0 n wd :: post)))
    by (apply admissible_run_consistent; [apply consistent_empty|done]).
  assert (Hw : watch (run Watch_empty (pre ++ Insert pd0 n wd :: post)) !! wd
               = Some (Build_wd_elem pd0 n)).
  { rewrite run_app. rewrite admissible_run_app in Ha.
    apply andb_true_iff in Ha as [Hpre Hpost].
    change (Insert pd0 n wd :: post) with ([Insert pd0 n wd] ++ post) in *.
    rewrite run_app. rewrite admissible_run_app in Hpost.
    apply andb_true_iff in Hpost as [Hins Hpost].
    apply entry_persists; [|apply lookup_insert_eq|done|done].
    apply admissible_run_consistent; [|done].
    apply admissible_run_consistent; [apply consistent_empty|done]. }
  set (w := run Watch_empty (pre ++ Insert pd0 n wd :: post)) in *.
  split; [|split; [|split]].
  - unfold get_wd. apply Hc in Hw. rewrite (map_index_Some _ _ _ _ Hw).
    by destruct w.
  - intros ->. intros fuel. by apply get_root.
  - intros Hne fuel p w' Hp. rewrite (get_child _ _ _ _ _ Hw Hne). by rewrite Hp.
  - intros Hne p Hp. apply get_full_path. by eapply full_path_child.
Qed.

Lemma C5_round_trip_witness :
  get_wd (run Watch_empty ops_abc) 1 "a" = (2, run Watch_empty ops_abc) ∧
  get 1 (run Watch_empty ops_abc) 1 = Some ("/tmp/root", run Watch_empty ops_abc) ∧
  get 2 (run Watch_empty ops_abc) 2 = Some ("/tmp/root/a", run Watch_empty ops_abc) ∧
  (∃ fuel, ∀ fuel', (fuel ≤ fuel')%nat →
     get fuel' (run Watch_empty ops_abc) 2
       = Some ("/tmp/root/a", run Watch_empty ops_abc)).
Proof.
  destruct (proj1 C5_round_trip [Insert (-1) "/tmp/root" 1] [Insert 2 "b" 3]
              1 "a" 2) as (Hlook & _ & Hget & Hfull).
  { reflexivity. }
  { intros Hin. apply list_elem_of_singleton in Hin. discriminate. }
  destruct (proj1 C5_round_trip [] [Insert 1 "a" 2; Insert 2 "b" 3]
              (-1) "/tmp/root" 1) as (_ & Hroot & _).
  { reflexivity. }
  { intros Hin. apply elem_of_cons in Hin as [Hin|Hin]; [discriminate|].
    apply list_elem_of_singleton in Hin. discriminate. }
  split; [exact Hlook|]. split; [exact (Hroot eq_refl 0%nat)|]. split.
  - apply (Hget ltac:(lia) 1%nat "/tmp/root"). vm_compute. reflexivity.
  - apply (Hfull ltac:(lia) "/tmp/root"). apply full_path_root. reflexivity.
Defined.

(** ** What [erase] returns *)

(** For an entry of a consistent registry [erase] returns the descriptor and
    the entry's own name. *)
Lemma erase_live_returns w pd0 n wd :
  consistent w → watch w !! wd = Some (Build_wd_elem pd0 n) →
  erase w pd0 n =
    (n, wd, Build_Watch (delete wd (watch w))
                        (delete (Build_wd_elem pd0 n) (rwatch w))).
Proof.
  intros Hc Hw. assert (Hr := proj1 (Hc _ _) Hw).
  by rewrite (erase_live _ _ _ _ Hr), Hw.
Qed.

(** C2 at the registry that holds the root "./tmp" under 1 and "a" under 2:
    [get (2)] is "./tmp/a", but [erase (1, "a")] returns the descriptor 2
    with the bare name "a", and that is what the loop prints for the
    deletion, after printing "./tmp/a" for the creation. *)
Lemma C2_erase_returns_bare_name :
  get 2 reg_child 2 = Some ("./tmp/a", reg_child) ∧
  erase reg_child 1 "a" = ("a", 2, reg_root) ∧
  (snd <$> process_events 2 (main_init 1)
     [ (named_event 1 (Z.lor IN_CREATE IN_ISDIR) "a", 2);
       (named_event 1 (Z.lor IN_DELETE IN_ISDIR) "a", 0) ])
  = Some [ Call_add_watch "./tmp/a"; Print_New_directory "./tmp/a";
           Call_rm_watch 2; Print_Directory_deleted "a" ].
Proof. repeat split; vm_compute; reflexivity. Qed.

(** ** Teardown *)

Lemma map_begin_nonempty {V} (m : gmap Z V) :
  m ≠ ∅ → ∃ k, map_begin m = It_at k.
Proof.
  intros Hne. unfold map_begin, map_keys.
  destruct (map_to_list m) as [|[k v] l] eqn:Hl.
  - by apply map_to_list_empty_iff in Hl.
  - simpl. eauto.
Qed.

(** On a registry with entries the loop of [cleanup] erases the element
    under its iterator and then increments that iterator. *)
Lemma cleanup_nonempty w : watch w ≠ ∅ → cleanup w = Undefined.
Proof.
  intros Hne. unfold cleanup.
  destruct (map_begin_nonempty _ Hne) as [k ->].
  destruct (size (watch w)) eqn:Hsz.
  - by apply map_size_empty_iff in Hsz.
  - reflexivity.
Qed.

Lemma cleanup_empty w : watch w = ∅ → cleanup w = Done ([], Watch_empty).
Proof.
  intros He. unfold cleanup. rewrite He. reflexivity.
Qed.

(** C6 at the registry that holds only the root: the first [cleanup] has no
    defined outcome, so neither the descriptors seen nor the counts
    afterwards are determined; on the empty registry it deregisters nothing
    and leaves both maps empty. *)
Lemma C6_cleanup_undefined_with_entries :
  cleanup reg_root = Undefined ∧
  cleanup Watch_empty = Done ([], Watch_empty).
Proof.
  split.
  - apply cleanup_nonempty. intros H.
    apply (f_equal (fun m => m !! 1)) in H. vm_compute in H. discriminate.
  - by apply cleanup_empty.
Qed.

(** ** The event loop *)

Lemma process_create_dir fuel st wd n added dir w1 :
  get fuel (main_watch st) wd = Some (dir, w1) →
  ∃ out,
    process_event fuel st (named_event wd (Z.lor IN_CREATE IN_ISDIR) n) added
    = Some (Build_main_state (insert w1 wd n added) added dir
              (dir +:+ "/" +:+ n)
              (total_file_events st) (total_dir_events st + 1), out).
Proof. intros Hg. named_event_step. rewrite Hg. eauto. Qed.

Lemma process_create_file fuel st wd n added dir w1 :
  get fuel (main_watch st) wd = Some (dir, w1) →
  ∃ out,
    process_event fuel st (named_event wd IN_CREATE n) added
    = Some (Build_main_state w1 (main_wd st) dir (new_dir st)
              (total_file_events st + 1) (total_dir_events st), out).
Proof. intros Hg. named_event_step. rewrite Hg. eauto. Qed.

Lemma process_delete_dir fuel st wd n added nd wd' w1 :
  erase (main_watch st) wd n = (nd, wd', w1) →
  ∃ out,
    process_event fuel st (named_event wd (Z.lor IN_DELETE IN_ISDIR) n) added
    = Some (Build_main_state w1 wd' (current_dir st) nd
              (total_file_events st) (total_dir_events st - 1), out).
Proof. intros He. named_event_step. rewrite He. eauto. Qed.

(** C7: from the state in which [main] enters its loop, both counters at
    zero, the events "directory x created in the root", "file f.txt created
    in x", "directory x deleted from the root" are processed to completion
    and leave [total_dir_events] at 0 and [total_file_events] at 1, whatever
    the two descriptors are, as long as they differ. *)
Theorem C7_scenario_counters (fuel : nat) (root x a2 a3 : Z) :
  (2 ≤ fuel)%nat → x ≠ root →
  ∃ st out,
    process_events fuel (main_init root) (scenario root x a2 a3) = Some (st, out) ∧
    total_dir_events st = 0 ∧ total_file_events st = 1.
Proof.
  intros Hfuel Hne. destruct fuel as [|[|fuel]]; [lia|lia|].
  set (w0 := insert Watch_empty (-1) "./tmp" root).
  set (w1 := insert w0 root "x" x).
  assert (Hroot0 : watch w0 !! root = Some (Build_wd_elem (-1) "./tmp"))
    by apply lookup_insert_eq.
  assert (Hroot1 : watch w1 !! root = Some (Build_wd_elem (-1) "./tmp"))
    by (unfold w1, insert; simpl; rewrite lookup_insert_ne by done;
        apply lookup_insert_eq).
  assert (Hx : watch w1 !! x = Some (Build_wd_elem root "x"))
    by apply lookup_insert_eq.
  assert (Hrx : rwatch w1 !! Build_wd_elem root "x" = Some x)
    by apply lookup_insert_eq.
  destruct (process_create_dir (S (S fuel)) (main_init root) root "x" x "./tmp" w0)
    as [out1 H1]; [by apply get_root|].
  assert (Hgx : ∃ dir, get (S (S fuel)) w1 x = Some (dir, w1)).
  { destruct (decide (root = -1)) as [Hr|Hr].
    - exists "x". apply get_root. by rewrite Hx, Hr.
    - exists ("./tmp" +:+ "/" +:+ "x"). rewrite (get_child _ _ _ _ _ Hx Hr).
      by rewrite (get_root _ _ _ _ Hroot1). }
  destruct Hgx as [dir Hgx].
  unfold scenario. cbn [process_events]. rewrite H1.
  match goal with |- context [process_event _ ?st (named_event x _ _) _] =>
    destruct (process_create_file (S (S fuel)) st x "f.txt" a2 dir w1)
      as [out2 H2]; [exact Hgx|] end.
  rewrite H2.
  match goal with |- context [process_event _ ?st (named_event root _ _) _] =>
    destruct (process_delete_dir (S (S fuel)) st root "x" a3 _ _ _
                (erase_live _ _ _ _ Hrx)) as [out3 H3] end.
  rewrite H3. eexists _, _. split; [reflexivity|]. simpl. split; lia.
Qed.

Lemma C7_scenario_counters_witness :
  ∃ st out,
    process_events 2 (main_init 1) (scenario 1 2 0 0) = Some (st, out) ∧
    total_dir_events st = 0 ∧ total_file_events st = 1.
Proof. apply (C7_scenario_counters 2 1 2 0 0); lia. Defined.

Lemma main_loop_exit fuel rounds : ∀ st out st' out',
  main_loop fuel st out rounds = Exited st' out' →
  ∃ pre events post,
    rounds = pre ++ (false, events) :: post ∧
    Forall (fun r => r.1 = true) pre ∧
    main_loop fuel st out pre = Waiting st' out'.
Proof.
  induction rounds as [|[run events] rest IH]; intros st out st' out' Hloop;
    simpl in Hloop; [done|].
  destruct run.
  - destruct (process_events fuel st events) as [[st1 out1]|] eqn:Hev; [|done].
    destruct (IH _ _ _ _ Hloop) as (pre & evs & post & -> & Hall & Hpre).
    exists ((true, events) :: pre), evs, post. split; [done|]. split.
    + by constructor.
    + simpl. by rewrite Hev.
  - injection Hloop as <- <-. exists [], events, rest. by repeat split.
Qed.

Lemma process_events_nameless fuel st event added rest :
  ev_len event = 0 →
  process_events fuel st ((event, added) :: rest) =
    match process_events fuel st rest with
    | Some (st', out) => Some (st', overflow_report event ++ out)
    | None => None
    end.
Proof.
  intros Hlen. cbn [process_events]. unfold process_event. by rewrite Hlen.
Qed.

Lemma process_event_not_resolving fuel st event added :
  resolves event = false → is_Some (process_event fuel st event added).
Proof.
  unfold resolves, process_event.
  destruct (ev_len event =? 0); [eauto|]. simpl.
  destruct (has_flag (ev_mask event) IN_CREATE); [done|].
  destruct (has_flag (ev_mask event) IN_DELETE); simpl; [|eauto].
  destruct (has_flag (ev_mask event) IN_ISDIR); simpl; [|done].
  destruct (erase _ _ _) as [[nd wd] w1]. eauto.
Qed.

Lemma process_event_resolving fuel st event added :
  resolves event = true →
  is_Some (process_event fuel st event added)
  ↔ is_Some (get fuel (main_watch st) (ev_wd event)).
Proof.
  unfold resolves, process_event.
  destruct (ev_len event =? 0); [done|]. simpl.
  destruct (has_flag (ev_mask event) IN_CREATE); simpl.
  - intros _. destruct (get fuel _ _) as [[dir w1]|].
    + destruct (has_flag (ev_mask event) IN_ISDIR); split; eauto.
    + split; intros [? ?]; done.
  - destruct (has_flag (ev_mask event) IN_DELETE); simpl; [|done].
    destruct (has_flag (ev_mask event) IN_ISDIR); simpl; [done|].
    intros _. destruct (get fuel _ _) as [[dir w1]|].
    + split; eauto.
    + split; intros [? ?]; done.
Qed.

Lemma live_reaches_iff fw wd e :
  fw !! wd = Some e → pd e ≠ -1 → reaches_root fw wd ↔ reaches_root fw (pd e).
Proof.
  intros Hw Hne. split; intros [n Hn].
  - destruct n as [|n]; simpl in Hn; rewrite (entry_at_Some _ _ _ Hw) in Hn.
    + done.
    + by exists n.
  - exists (S n). simpl. by rewrite (entry_at_Some _ _ _ Hw).
Qed.

(** C8, as stated, fails: one event can hold the loop for good.  The events
    [orphaning_events] leave descriptor 3 in the registry with a parent, 2,
    that is gone; the next event under descriptor 3 sends [get] into a
    recursion without end, so no later event is processed and a cleared run
    flag is never seen.  The same happens at the very start with an event
    that has descriptor -1 and the overflow bit and names a new file. *)
Lemma C8_event_never_completes :
  (fst <$> process_events 2 (main_init 1) orphaning_events) = Some orphaned_state ∧
  (∀ fuel rest,
     process_events fuel orphaned_state ((orphan_file_event, 0) :: rest) = None) ∧
  (∀ fuel rest more,
     main_loop fuel orphaned_state []
       ((true, (orphan_file_event, 0) :: rest) :: more) = Stuck) ∧
  (∀ fuel rest,
     process_events fuel (main_init 1) ((flagged_named_event, 0) :: rest) = None).
Proof.
  assert (Horphan : ∀ fuel,
            process_event fuel orphaned_state orphan_file_event 0 = None).
  { intros fuel.
    destruct (process_event fuel orphaned_state orphan_file_event 0) eqn:Hp;
      [|done].
    exfalso.
    assert (Hs : is_Some (process_event fuel orphaned_state orphan_file_event 0))
      by (rewrite Hp; eauto).
    apply process_event_resolving in Hs; [|reflexivity].
    destruct Hs as [r Hr].
    assert (Hreach : reaches_root (watch (main_watch orphaned_state)) 3)
      by (apply get_terminates_iff; eauto).
    rewrite (live_reaches_iff _ 3 (Build_wd_elem 2 "b")) in Hreach;
      [|reflexivity|simpl; lia].
    rewrite absent_reaches_iff in Hreach by reflexivity.
    by apply zero_absent_no_root in Hreach. }
  split; [vm_compute; reflexivity|]. split; [|split].
  - intros fuel rest. cbn [process_events]. by rewrite Horphan.
  - intros fuel rest more. cbn [main_loop process_events]. by rewrite Horphan.
  - intros fuel rest. cbn [process_events].
    destruct (process_event fuel (main_init 1) flagged_named_event 0) eqn:Hp;
      [|done].
    exfalso.
    assert (Hs : is_Some (process_event fuel (main_init 1) flagged_named_event 0))
      by (rewrite Hp; eauto).
    apply process_event_resolving in Hs; [|reflexivity].
    destruct Hs as [r Hr].
    assert (Hreach : reaches_root (watch (main_watch (main_init 1))) (-1))
      by (apply get_terminates_iff; eauto).
    rewrite absent_reaches_iff in Hreach by reflexivity.
    by apply zero_absent_no_root in Hreach.
Qed.

(** C8, amended: the loop is left only when the run flag is found cleared at
    the head of a round.  An event without a name, as the overflow event
    is, is reported and changes nothing, and the events after it are
    processed as they are without it.  An event for which the loop does not
    resolve the descriptor is always processed to completion; an event for
    which it does (a creation, or the deletion of a plain file) is processed
    to completion exactly when the chain of parents of its descriptor comes
    to a root entry. *)
Theorem C8_loop_resilience :
  (∀ fuel st out rounds st' out',
     main_loop fuel st out rounds = Exited st' out' →
     ∃ pre events post,
       rounds = pre ++ (false, events) :: post ∧
       Forall (fun r => r.1 = true) pre ∧
       main_loop fuel st out pre = Waiting st' out') ∧
  (∀ fuel st event added rest,
     ev_len event = 0 →
     process_events fuel st ((event, added) :: rest) =
       match process_events fuel st rest with
       | Some (st', out) => Some (st', overflow_report event ++ out)
       | None => None
       end) ∧
  (∀ fuel st event added,
     resolves event = false → is_Some (process_event fuel st event added)) ∧
  (∀ st event added,
     resolves event = true →
     (∃ fuel, is_Some (process_event fuel st event added))
     ↔ reaches_root (watch (main_watch st)) (ev_wd event)).
Proof.
  split; [intros; by eapply main_loop_exit|].
  split; [intros; by apply process_events_nameless|].
  split; [intros; by apply process_event_not_resolving|].
  intros st event added Hres. rewrite <- get_terminates_iff. split.
  - intros [fuel Hs]. apply process_event_resolving in Hs as [r Hr]; eauto.
  - intros (fuel & r & Hr). exists fuel. apply process_event_resolving; eauto.
Qed.

Lemma C8_loop_resilience_witness :
  (∃ pre events post,
     [(true, (overflow_event, 0) :: scenario 1 2 0 0); (false, [])]
       = pre ++ (false, events) :: post ∧
     Forall (fun r => r.1 = true) pre) ∧
  process_events 2 (main_init 1) ((overflow_event, 0) :: scenario 1 2 0 0) =
    match process_events 2 (main_init 1) (scenario 1 2 0 0) with
    | Some (st', out) => Some (st', overflow_report overflow_event ++ out)
    | None => None
    end ∧
  is_Some (process_event 0 (main_init 1) overflow_event 0) ∧
  (∃ fuel, is_Some (process_event fuel (main_init 1) (named_event 1 IN_CREATE "f") 0)).
Proof.
  destruct C8_loop_resilience as (Hexit & Hnameless & Hnot & Hres).
  split; [|split; [|split]].
  - edestruct (Hexit 2%nat (main_init 1) []
                 [(true, (overflow_event, 0) :: scenario 1 2 0 0); (false, [])])
      as (pre & events & post & Heq & Hall & _).
    + vm_compute. reflexivity.
    + exists pre, events, post. by split.
  - apply Hnameless. reflexivity.
  - apply Hnot. reflexivity.
  - apply Hres; [reflexivity|]. exists 0%nat. reflexivity.
Defined.

(** ** The ordering of the reverse map's keys *)

Lemma ascii_compare_refl a : Ascii.compare a a = Eq.
Proof. unfold Ascii.compare. apply N.compare_refl. Qed.

Lemma ascii_compare_trans a b c :
  Ascii.compare a b = Lt → Ascii.compare b c = Lt → Ascii.compare a c = Lt.
Proof. unfold Ascii.compare. rewrite !N.compare_lt_iff. lia. Qed.

Lemma string_compare_refl s : String.compare s s = Eq.
Proof.
  pose proof (String.compare_antisym s s). by destruct (String.compare s s).
Qed.

Lemma string_compare_trans a : ∀ b c,
  String.compare a b = Lt → String.compare b c = Lt → String.compare a c = Lt.
Proof.
  induction a as [|a0 a IH]; intros [|b0 b] [|c0 c]; simpl; try done.
  destruct (Ascii.compare a0 b0) eqn:Hab; try done;
    destruct (Ascii.compare b0 c0) eqn:Hbc; try done; intros H1 H2.
  - apply Ascii.compare_eq_iff in Hab as ->. apply Ascii.compare_eq_iff in Hbc as ->.
    rewrite ascii_compare_refl. by eapply IH.
  - apply Ascii.compare_eq_iff in Hab as ->. by rewrite Hbc.
  - apply Ascii.compare_eq_iff in Hbc as <-. by rewrite Hab.
  - by rewrite (ascii_compare_trans _ _ _ Hab Hbc).
Qed.

(** X1: [wd_elem::operator()] is a strict total order on the keys: no key is
    below itself, the order is transitive, and of two different keys one is
    below the other.  That is what [std::map] asks of its comparison. *)
Theorem X1_wd_elem_less_strict_order :
  (∀ a, wd_elem_less a a = false) ∧
  (∀ a b c, wd_elem_less a b = true → wd_elem_less b c = true →
            wd_elem_less a c = true) ∧
  (∀ a b, a ≠ b → wd_elem_less a b = true ∨ wd_elem_less b a = true).
Proof.
  split; [|split].
  - intros a. by apply wd_elem_less_equiv.
  - intros [pa na] [pb nb] [pc nc]. unfold wd_elem_less, String.ltb. simpl.
    destruct (Z.ltb_spec pa pb), (Z.ltb_spec pb pc), (Z.ltb_spec pa pc);
      try done; try lia;
      destruct (Z.eqb_spec pa pb), (Z.eqb_spec pb pc), (Z.eqb_spec pa pc);
      simpl; try done; try lia.
    destruct (String.compare na nb) eqn:Hab; try done.
    destruct (String.compare nb nc) eqn:Hbc; try done.
    by rewrite (string_compare_trans _ _ _ Hab Hbc).
  - intros a b Hne.
    destruct (wd_elem_less a b) eqn:Hab; [by left|].
    destruct (wd_elem_less b a) eqn:Hba; [by right|].
    exfalso. apply Hne. by apply wd_elem_less_equiv.
Qed.

Lemma X1_wd_elem_less_strict_order_witness :
  wd_elem_less (Build_wd_elem 1 "a") (Build_wd_elem 2 "a") = true ∧
  (wd_elem_less (Build_wd_elem 1 "a") (Build_wd_elem 1 "b") = true
   ∨ wd_elem_less (Build_wd_elem 1 "b") (Build_wd_elem 1 "a") = true).
Proof.
  destruct X1_wd_elem_less_strict_order as (_ & Htrans & Htotal). split.
  - apply (Htrans _ (Build_wd_elem 1 "b")); reflexivity.
  - apply Htotal. discriminate.
Defined.

(** ** More on [get] *)

Lemma get_fuel_mono fuel : ∀ w wd r,
  get fuel w wd = Some r → ∀ fuel', (fuel ≤ fuel')%nat → get fuel' w wd = Some r.
Proof.
  induction fuel as [|fuel IH]; intros w wd r Hget fuel' Hle; [done|].
  destruct fuel' as [|fuel']; [lia|].
  rewrite get_step in Hget |- *. cbn zeta in *.
  destruct (pd (entry_at (watch w) wd) =? -1); [done|].
  destruct (get fuel _ _) as [[p w2]|] eqn:Hrec; [|done].
  by rewrite (IH _ _ _ Hrec fuel') by lia.
Qed.

(** The answer of [get] does not depend on how deep the recursion is allowed
    to go. *)
Lemma get_answer_unique fuel1 fuel2 w wd r1 r2 :
  get fuel1 w wd = Some r1 → get fuel2 w wd = Some r2 → r1 = r2.
Proof.
  intros H1 H2.
  pose proof (get_fuel_mono _ _ _ _ H1 (fuel1 `max` fuel2)%nat ltac:(lia)) as H1'.
  pose proof (get_fuel_mono _ _ _ _ H2 (fuel1 `max` fuel2)%nat ltac:(lia)) as H2'.
  congruence.
Qed.

Lemma full_path_functional fw wd p :
  full_path fw wd p → ∀ q, full_path fw wd q → p = q.
Proof.
  induction 1 as [wd n Hw|wd pd0 n p Hw Hne _ IH]; intros q Hq;
    inversion Hq as [wd' n' Hw'|wd' pd1 n' q' Hw' Hne' Hq']; subst;
    rewrite Hw in Hw'; simplify_eq; try done.
  by rewrite (IH _ Hq').
Qed.

(** X2: for a descriptor whose chain of entries is all there up to a root
    entry, the full path is unique, and every call of [get] that returns,
    returns that path and the registry unchanged. *)
Theorem X2_get_returns_the_full_path w wd p :
  full_path (watch w) wd p →
  (∀ q, full_path (watch w) wd q → q = p) ∧
  (∀ fuel r, get fuel w wd = Some r → r = (p, w)).
Proof.
  intros Hp. split.
  - intros q Hq. symmetry. by eapply full_path_functional.
  - intros fuel r Hget. destruct (get_full_path _ _ _ Hp) as [fuel0 H0].
    eapply get_answer_unique; [exact Hget|]. apply (H0 fuel0). lia.
Qed.

Lemma X2_get_returns_the_full_path_witness :
  get 5 reg_child 2 = Some ("./tmp/a", reg_child).
Proof.
  assert (Hp : full_path (watch reg_child) 2 "./tmp/a").
  { apply (full_path_child _ 2 1 "a" "./tmp"); [reflexivity|lia|].
    apply full_path_root. reflexivity. }
  destruct (get 5 reg_child 2) as [r|] eqn:Hget.
  - f_equal.
    exact (proj2 (X2_get_returns_the_full_path reg_child 2 "./tmp/a" Hp)
             5%nat r Hget).
  - vm_compute in Hget. discriminate.
Defined.

(** X3: a call of [get] that returns has left [rwatch] alone and has neither
    erased nor changed an entry of [watch]; every entry that is new has
    parent 0 and an empty name. *)
Theorem X3_get_only_adds_default_entries fuel : ∀ w wd p w',
  get fuel w wd = Some (p, w') →
  rwatch w' = rwatch w ∧
  ∀ k, watch w' !! k = watch w !! k
       ∨ (watch w !! k = None ∧ watch w' !! k = Some wd_elem_default).
Proof.
  induction fuel as [|fuel IH]; intros w wd p w' Hget; [done|].
  rewrite get_step in Hget. cbn zeta in Hget.
  assert (Hidx : ∀ k,
    (map_index (watch w) wd wd_elem_default).2 !! k = watch w !! k
    ∨ (watch w !! k = None ∧
       (map_index (watch w) wd wd_elem_default).2 !! k = Some wd_elem_default)).
  { intros k. unfold map_index. destruct (watch w !! wd) eqn:Hw; simpl; [by left|].
    destruct (decide (wd = k)) as [<-|Hne].
    - right. by rewrite lookup_insert_eq.
    - left. by rewrite lookup_insert_ne. }
  destruct (pd (entry_at (watch w) wd) =? -1).
  - injection Hget as <- <-. simpl. auto.
  - destruct (get fuel _ _) as [[p0 w2]|] eqn:Hrec; [|done].
    injection Hget as <- <-.
    apply IH in Hrec as [Hr Hfw]. simpl in *. split; [done|].
    intros k. destruct (Hfw k) as [Heq|[Hn Hd]], (Hidx k) as [Heq'|[Hn' Hd']].
    + left. congruence.
    + right. split; [done|]. congruence.
    + right. split; [congruence|done].
    + congruence.
Qed.

Lemma X3_get_only_adds_default_entries_witness :
  rwatch (Build_Watch (<[7 := wd_elem_default]> (watch reg_root0)) (rwatch reg_root0))
    = rwatch reg_root0 ∧
  watch (Build_Watch (<[7 := wd_elem_default]> (watch reg_root0)) (rwatch reg_root0))
    !! 0 = watch reg_root0 !! 0.
Proof.
  destruct (X3_get_only_adds_default_entries 2 reg_root0 7 "./tmp/"
              (Build_Watch (<[7 := wd_elem_default]> (watch reg_root0))
                           (rwatch reg_root0))) as [Hr Hfw].
  { vm_compute. reflexivity. }
  split; [exact Hr|]. destruct (Hfw 0) as [Heq|[Hn _]]; [exact Heq|].
  vm_compute in Hn. discriminate.
Defined.

(** X4: a second call of [get] on the registry that a first call has left
    returns the same string and changes nothing any more. *)
Theorem X4_get_idempotent fuel : ∀ w wd p w',
  get fuel w wd = Some (p, w') → get fuel w' wd = Some (p, w').
Proof.
  induction fuel as [|fuel IH]; intros w wd p w' Hget; [done|].
  pose proof (get_keeps_entries _ _ _ _ _ Hget) as (_ & _ & Hwd).
  rewrite get_step in Hget. cbn zeta in Hget.
  rewrite get_step. cbn zeta.
  rewrite (entry_at_Some _ _ _ Hwd), (map_index_Some _ _ _ _ Hwd). cbn [snd].
  replace (Build_Watch (watch w') (rwatch w')) with w' by (by destruct w').
  destruct (pd (entry_at (watch w) wd) =? -1).
  - by injection Hget as <- <-.
  - destruct (get fuel _ _) as [[p0 w2]|] eqn:Hrec; [|done].
    injection Hget as <- <-. by rewrite (IH _ _ _ _ Hrec).
Qed.

Lemma X4_get_idempotent_witness :
  get 2 (Build_Watch (<[7 := wd_elem_default]> (watch reg_root0)) (rwatch reg_root0)) 7
  = Some ("./tmp/",
          Build_Watch (<[7 := wd_elem_default]> (watch reg_root0)) (rwatch reg_root0)).
Proof.
  apply (X4_get_idempotent 2 reg_root0 7). vm_compute. reflexivity.
Defined.

(** ** More on [insert] and [erase] *)

(** X5: [erase] undoes [insert]: when neither the descriptor nor the pair
    was in the registry, inserting the entry and erasing the pair again
    returns the name and the descriptor and gives back the registry as it
    was. *)
Theorem X5_erase_after_insert w pd0 n wd :
  watch w !! wd = None → rwatch w !! Build_wd_elem pd0 n = None →
  erase (insert w pd0 n wd) pd0 n = (n, wd, w).
Proof.
  intros Hw Hr.
  rewrite (erase_live _ _ _ wd) by apply lookup_insert_eq.
  unfold insert. cbn [watch rwatch].
  rewrite lookup_insert_eq. cbn [default name].
  rewrite !delete_insert_id by done. by destruct w.
Qed.

Lemma X5_erase_after_insert_witness :
  erase (insert reg_root 1 "a" 2) 1 "a" = ("a", 2, reg_root).
Proof. apply (X5_erase_after_insert reg_root 1 "a" 2); reflexivity. Defined.

(** X6: on a registry whose reverse map is the inverse of its forward map,
    [erase] of the pair of an entry returns the entry's name and descriptor,
    takes exactly that entry out of both maps, each of which loses one
    element, and leaves the reverse map the inverse of the forward map. *)
Theorem X6_erase_live_entry w pd0 n wd :
  consistent w → watch w !! wd = Some (Build_wd_elem pd0 n) →
  (erase w pd0 n).1 = (n, wd) ∧
  watch (erase w pd0 n).2 = delete wd (watch w) ∧
  rwatch (erase w pd0 n).2 = delete (Build_wd_elem pd0 n) (rwatch w) ∧
  S (stats (erase w pd0 n).2).1 = (stats w).1 ∧
  S (stats (erase w pd0 n).2).2 = (stats w).2 ∧
  consistent (erase w pd0 n).2.
Proof.
  intros Hc Hw. assert (Hr := proj1 (Hc _ _) Hw).
  pose proof (erase_live_consistent _ _ _ _ Hc Hr) as Hc'.
  rewrite (erase_live_returns _ _ _ _ Hc Hw) in *. cbn [fst snd watch rwatch].
  split; [done|]. split; [done|]. split; [done|].
  unfold stats; cbn [fst snd watch rwatch].
  split; [|split; [|exact Hc']].
  - rewrite map_size_delete, Hw. simpl.
    assert (size (watch w) ≠ 0%nat) by (eapply map_size_ne_0_lookup_2; eauto).
    lia.
  - rewrite map_size_delete, Hr. simpl.
    assert (size (rwatch w) ≠ 0%nat) by (eapply map_size_ne_0_lookup_2; eauto).
    lia.
Qed.

Lemma X6_erase_live_entry_witness :
  (erase reg_child 1 "a").1 = ("a", 2) ∧
  S (stats (erase reg_child 1 "a").2).1 = (stats reg_child).1 ∧
  consistent (erase reg_child 1 "a").2.
Proof.
  destruct (X6_erase_live_entry reg_child 1 "a" 2) as (H1 & _ & _ & H2 & _ & H3).
  - apply (admissible_run_consistent Watch_empty
             [Insert (-1) "./tmp" 1; Insert 1 "a" 2]);
      [apply consistent_empty|reflexivity].
  - reflexivity.
  - split; [exact H1|]. split; [exact H2|exact H3].
Defined.

(** X7: whatever the registry and the pair, after [erase] the pair is not in
    the reverse map and the returned descriptor is not in the forward map,
    and neither map has grown: the elements that the two lookups of [erase]
    may have put in are gone again. *)
Theorem X7_erase_postcondition w pd0 n :
  rwatch (erase w pd0 n).2 !! Build_wd_elem pd0 n = None ∧
  watch (erase w pd0 n).2 !! (erase w pd0 n).1.2 = None ∧
  ((stats (erase w pd0 n).2).1 ≤ (stats w).1)%nat ∧
  ((stats (erase w pd0 n).2).2 ≤ (stats w).2)%nat.
Proof.
  unfold stats. destruct (rwatch w !! Build_wd_elem pd0 n) as [wd|] eqn:Hr.
  - rewrite (erase_live _ _ _ _ Hr). cbn [fst snd watch rwatch].
    rewrite !lookup_delete_eq, !map_size_delete.
    repeat split; repeat case_match; simpl; lia.
  - rewrite (erase_absent _ _ _ Hr). cbn [fst snd watch rwatch].
    rewrite lookup_delete_eq, map_size_delete.
    repeat split; try done; repeat case_match; simpl; lia.
Qed.

(** ** The counters *)

(** The counters, taken as integers, move by the net counts. *)
Lemma counters_move_by_net events : ∀ fuel st st' out,
  process_events fuel st events = Some (st', out) →
  total_dir_events st' = total_dir_events st + net dir_delta events ∧
  total_file_events st' = total_file_events st + net file_delta events.
Proof.
  induction events as [|[event added] rest IH]; intros fuel st st' out Hrun.
  - injection Hrun as <- <-. simpl. lia.
  - cbn [process_events] in Hrun.
    destruct (process_event fuel st event added) as [[st1 out1]|] eqn:Hev; [|done].
    destruct (process_events fuel st1 rest) as [[st2 out2]|] eqn:Hrest; [|done].
    injection Hrun as <- <-. apply IH in Hrest as [Hd Hf].
    rewrite Hd, Hf. unfold net; cbn [foldr fst]. fold (net dir_delta rest).
    fold (net file_delta rest).
    assert (total_dir_events st1 = total_dir_events st + dir_delta event ∧
            total_file_events st1 = total_file_events st + file_delta event)
      as [-> ->]; [|lia].
    clear -Hev. unfold process_event, dir_delta, file_delta in *.
    destruct (ev_len event =? 0); [injection Hev as <- <-; lia|].
    destruct (has_flag (ev_mask event) IN_CREATE).
    { destruct (get fuel _ _) as [[dir w1]|]; [|done].
      destruct (has_flag (ev_mask event) IN_ISDIR);
        injection Hev as <- <-; simpl; lia. }
    destruct (has_flag (ev_mask event) IN_DELETE);
      [|injection Hev as <- <-; lia].
    destruct (has_flag (ev_mask event) IN_ISDIR).
    { destruct (erase _ _ _) as [[nd wd] w1]. injection Hev as <- <-. simpl. lia. }
    destruct (get fuel _ _) as [[dir w1]|]; [|done].
    injection Hev as <- <-. simpl. lia.
Qed.

Lemma net_dir_delta_bound events :
  - Z.of_nat (length events) ≤ net dir_delta events ≤ Z.of_nat (length events).
Proof.
  induction events as [|[event added] rest IH]; [simpl; lia|].
  change (net dir_delta ((event, added) :: rest))
    with (dir_delta event + net dir_delta rest).
  assert (-1 ≤ dir_delta event ≤ 1)
    by (unfold dir_delta; repeat case_match; lia).
  rewrite length_cons. lia.
Qed.

Lemma net_file_delta_bound events :
  - Z.of_nat (length events) ≤ net file_delta events ≤ Z.of_nat (length events).
Proof.
  induction events as [|[event added] rest IH]; [simpl; lia|].
  change (net file_delta ((event, added) :: rest))
    with (file_delta event + net file_delta rest).
  assert (-1 ≤ file_delta event ≤ 1)
    by (unfold file_delta; repeat case_match; lia).
  rewrite length_cons. lia.
Qed.

(** X8: when the two counters are so far from the ends of the range of
    [int] that as many steps as there are events cannot take them out of it,
    then, the list of events processed, [total_dir_events] has grown by the
    number of directory creations less the number of directory deletions
    among the events that carry a name, and [total_file_events] by the same
    for plain files, an event with both [IN_CREATE] and [IN_DELETE] counting
    as a creation; and after every event on the way both counters are values
    that an [int] holds, so that no [++] or [--] overflows.  Descriptors,
    names and the registry play no part. *)
Theorem X8_counters_are_net_counts events fuel st st' out :
  INT_MIN + Z.of_nat (length events) ≤ total_dir_events st
    ≤ INT_MAX - Z.of_nat (length events) →
  INT_MIN + Z.of_nat (length events) ≤ total_file_events st
    ≤ INT_MAX - Z.of_nat (length events) →
  process_events fuel st events = Some (st', out) →
  total_dir_events st' = total_dir_events st + net dir_delta events ∧
  total_file_events st' = total_file_events st + net file_delta events ∧
  (∀ pre post st1 out1,
     events = pre ++ post →
     process_events fuel st pre = Some (st1, out1) →
     int_range (total_dir_events st1) ∧ int_range (total_file_events st1)).
Proof.
  intros Hd Hf Hrun.
  destruct (counters_move_by_net _ _ _ _ _ Hrun) as [Hdir Hfile].
  split; [done|]. split; [done|].
  intros pre post st1 out1 -> Hpre.
  destruct (counters_move_by_net _ _ _ _ _ Hpre) as [Hd1 Hf1].
  pose proof (net_dir_delta_bound pre). pose proof (net_file_delta_bound pre).
  rewrite length_app in Hd, Hf. unfold int_range. lia.
Qed.

Lemma X8_counters_are_net_counts_witness :
  ∃ st' out,
    process_events 2 (main_init 1) (scenario 1 2 0 0) = Some (st', out) ∧
    total_dir_events st' = 0 + net dir_delta (scenario 1 2 0 0) ∧
    total_file_events st' = 0 + net file_delta (scenario 1 2 0 0) ∧
    int_range (total_dir_events st') ∧ int_range (total_file_events st').
Proof.
  destruct (process_events 2 (main_init 1) (scenario 1 2 0 0))
    as [[st' out]|] eqn:Hrun.
  - exists st', out. split; [reflexivity|].
    destruct (X8_counters_are_net_counts (scenario 1 2 0 0) 2 (main_init 1) st' out)
      as (Hd & Hf & Hrange).
    + vm_compute. split; discriminate.
    + vm_compute. split; discriminate.
    + exact Hrun.
    + split; [exact Hd|]. split; [exact Hf|].
      apply (Hrange (scenario 1 2 0 0) [] st' out); [by rewrite app_nil_r|exact Hrun].
  - vm_compute in Hrun. discriminate.
Defined.

(** ** Rounds of the loop *)

Lemma process_events_app fuel a : ∀ st b,
  process_events fuel st (a ++ b) =
    match process_events fuel st a with
    | Some (st1, out1) =>
        match process_events fuel st1 b with
        | Some (st2, out2) => Some (st2, out1 ++ out2)
        | None => None
        end
    | None => None
    end.
Proof.
  induction a as [|[event added] a IH]; intros st b; cbn [process_events app].
  - by destruct (process_events fuel st b) as [[st2 out2]|].
  - destruct (process_event fuel st event added) as [[st1 out1]|]; [|done].
    rewrite IH. destruct (process_events fuel st1 a) as [[st2 out2]|]; [|done].
    destruct (process_events fuel st2 b) as [[st3 out3]|]; [|done].
    by rewrite app_assoc.
Qed.

(** X9: how the events are spread over the reads does not matter: as long
    as the run flag is found set, the loop does with a sequence of buffers
    what it does with all their events in one buffer. *)
Theorem X9_rounds_are_one_stream fuel rounds : ∀ st out,
  Forall (fun r => r.1 = true) rounds →
  main_loop fuel st out rounds =
    match process_events fuel st (concat rounds.*2) with
    | Some (st', out') => Waiting st' (out ++ out')
    | None => Stuck
    end.
Proof.
  induction rounds as [|[run events] rest IH]; intros st out Hall.
  - simpl. by rewrite app_nil_r.
  - apply Forall_cons in Hall as [Hrun Hall]. simpl in Hrun. subst run.
    cbn [main_loop fmap list_fmap concat snd]. rewrite process_events_app.
    destruct (process_events fuel st events) as [[st1 out1]|]; [|done].
    rewrite (IH _ _ Hall).
    destruct (process_events fuel st1 _) as [[st2 out2]|]; [|done].
    by rewrite app_assoc.
Qed.

Lemma X9_rounds_are_one_stream_witness :
  main_loop 2 (main_init 1) []
    [(true, [(overflow_event, 0)]); (true, scenario 1 2 0 0)]
  = match process_events 2 (main_init 1) ((overflow_event, 0) :: scenario 1 2 0 0) with
    | Some (st', out') => Waiting st' out'
    | None => Stuck
    end.
Proof.
  apply (X9_rounds_are_one_stream 2
           [(true, [(overflow_event, 0)]); (true, scenario 1 2 0 0)]
           (main_init 1) []).
  repeat constructor.
Defined.

(** ** Orderly event streams *)

Lemma full_path_insert_fresh fw wd p k e :
  full_path fw wd p → fw !! k = None → full_path (<[k := e]> fw) wd p.
Proof.
  intros Hp Hk. induction Hp as [wd n Hw|wd pd0 n p Hw Hne _ IH].
  - apply full_path_root. rewrite lookup_insert_ne; [done|]. congruence.
  - eapply full_path_child; [|done|done].
    rewrite lookup_insert_ne; [done|]. congruence.
Qed.

Lemma full_path_delete_leaf fw wd p k :
  full_path fw wd p → wd ≠ k →
  map_Forall (fun _ e => pd e = k → pd e = -1) fw →
  full_path (delete k fw) wd p.
Proof.
  intros Hp Hne Hleaf. revert Hne.
  induction Hp as [wd n Hw|wd pd0 n p Hw Hpd _ IH]; intros Hne.
  - apply full_path_root. by rewrite lookup_delete_ne.
  - eapply full_path_child; [by rewrite lookup_delete_ne|done|].
    apply IH. intros Heq. apply Hpd. by apply (Hleaf _ _ Hw).
Qed.

Lemma rooted_get w wd :
  rooted w → is_Some (watch w !! wd) →
  ∃ p fuel0, full_path (watch w) wd p ∧
    ∀ fuel, (fuel0 ≤ fuel)%nat → get fuel w wd = Some (p, w).
Proof.
  intros Hroot [e He]. destruct (Hroot _ _ He) as [p Hp].
  destruct (get_full_path _ _ _ Hp) as [fuel0 Hget]. eauto.
Qed.

Lemma main_init_consistent wd : consistent (main_watch (main_init wd)).
Proof.
  apply (insert_fresh_consistent Watch_empty); [apply consistent_empty|done|done].
Qed.

Lemma main_init_rooted wd : rooted (main_watch (main_init wd)).
Proof.
  intros k e Hk. simpl in Hk. exists "./tmp". apply full_path_root. simpl.
  destruct (decide (wd = k)) as [->|Hne].
  - apply lookup_insert_eq.
  - rewrite lookup_insert_ne in Hk by done. by rewrite lookup_empty in Hk.
Qed.

Lemma registry_after_orderly w event added :
  consistent w → rooted w → orderly w event added = true →
  consistent (registry_after w event added) ∧ rooted (registry_after w event added).
Proof.
  intros Hc Hroot Hord. unfold orderly, registry_after in *.
  destruct (ev_len event =? 0); [done|].
  destruct (has_flag (ev_mask event) IN_CREATE).
  - apply andb_true_iff in Hord as [Hlive Hnew].
    apply bool_decide_eq_true in Hlive.
    destruct (has_flag (ev_mask event) IN_ISDIR); [|done].
    apply bool_decide_eq_true in Hnew as [Hfw Hrw].
    split; [by apply insert_fresh_consistent|].
    intros k e Hk. unfold insert in *. cbn [watch] in *.
    destruct (decide (added = k)) as [<-|Hne].
    + rewrite lookup_insert_eq in Hk. injection Hk as <-.
      destruct (decide (ev_wd event = -1)) as [Hr|Hr].
      * exists (ev_name event). apply full_path_root.
        by rewrite lookup_insert_eq, Hr.
      * destruct Hlive as [e He]. destruct (Hroot _ _ He) as [p Hp].
        exists (p +:+ "/" +:+ ev_name event).
        eapply full_path_child; [apply lookup_insert_eq|done|].
        by apply full_path_insert_fresh.
    + rewrite lookup_insert_ne in Hk by done.
      destruct (Hroot _ _ Hk) as [p Hp]. exists p.
      by apply full_path_insert_fresh.
  - destruct (has_flag (ev_mask event) IN_DELETE); [|done].
    destruct (has_flag (ev_mask event) IN_ISDIR); [|done].
    destruct (rwatch w !! _) as [wd'|] eqn:Hr; [|done].
    apply bool_decide_eq_true in Hord.
    split; [by eapply erase_live_consistent|].
    rewrite (erase_live _ _ _ _ Hr). cbn [snd].
    intros k e Hk. cbn [watch] in Hk |- *.
    destruct (decide (wd' = k)) as [<-|Hne].
    { by rewrite lookup_delete_eq in Hk. }
    rewrite lookup_delete_ne in Hk by done.
    destruct (Hroot _ _ Hk) as [p Hp]. exists p.
    by apply full_path_delete_leaf.
Qed.

Lemma process_event_orderly w event added :
  rooted w → orderly w event added = true →
  ∃ fuel0, ∀ st fuel, main_watch st = w → (fuel0 ≤ fuel)%nat →
    ∃ st' out, process_event fuel st event added = Some (st', out) ∧
               main_watch st' = registry_after w event added.
Proof.
  intros Hroot Hord. unfold orderly, registry_after, process_event in *.
  destruct (ev_len event =? 0); [exists 0%nat; intros st fuel <- _; eauto|].
  destruct (has_flag (ev_mask event) IN_CREATE).
  - apply andb_true_iff in Hord as [Hlive _].
    apply bool_decide_eq_true in Hlive.
    destruct (rooted_get _ _ Hroot Hlive) as (p & fuel0 & _ & Hget).
    exists fuel0. intros st fuel <- Hle. rewrite (Hget _ Hle).
    destruct (has_flag (ev_mask event) IN_ISDIR); eauto.
  - destruct (has_flag (ev_mask event) IN_DELETE);
      [|exists 0%nat; intros st fuel <- _; eauto].
    destruct (has_flag (ev_mask event) IN_ISDIR).
    + exists 0%nat. intros st fuel <- _.
      destruct (erase _ _ _) as [[nd wd'] w1]. eauto.
    + apply bool_decide_eq_true in Hord.
      destruct (rooted_get _ _ Hroot Hord) as (p & fuel0 & _ & Hget).
      exists fuel0. intros st fuel <- Hle. rewrite (Hget _ Hle). eauto.
Qed.

Lemma process_events_orderly events : ∀ w,
  consistent w → rooted w → orderly_run w events = true →
  ∃ fuel0, ∀ st fuel, main_watch st = w → (fuel0 ≤ fuel)%nat →
    ∃ st' out, process_events fuel st events = Some (st', out) ∧
               main_watch st' = registry_run w events ∧
               consistent (main_watch st') ∧ rooted (main_watch st').
Proof.
  induction events as [|[event added] rest IH]; intros w Hc Hroot Hord.
  - exists 0%nat. intros st fuel Hst _. exists st, []. subst w.
    split; [reflexivity|]. split; [reflexivity|]. split; assumption.
  - cbn [orderly_run] in Hord. apply andb_true_iff in Hord as [Hev Hrest].
    destruct (registry_after_orderly _ _ _ Hc Hroot Hev) as [Hc1 Hroot1].
    destruct (process_event_orderly _ _ _ Hroot Hev) as [fuel1 H1].
    destruct (IH _ Hc1 Hroot1 Hrest) as [fuel2 H2].
    exists (fuel1 `max` fuel2)%nat. intros st fuel Hst Hle.
    destruct (H1 st fuel Hst ltac:(lia)) as (st1 & out1 & Hp1 & Hw1).
    destruct (H2 st1 fuel Hw1 ltac:(lia)) as (st2 & out2 & Hp2 & Hw2 & Hc2 & Hr2).
    exists st2, (out1 ++ out2). cbn [process_events]. rewrite Hp1, Hp2.
    split; [reflexivity|]. split; [exact Hw2|]. split; assumption.
Qed.

(** X10: an orderly stream of events is processed to the end.  Started on a
    registry whose reverse map is the inverse of its forward map and in
    which every entry has a full path, as the registry is when [main] enters
    its loop, the loop body completes for every event of such a stream, given
    room for the recursion of [get]; the registry then is what the calls of
    [insert] and [erase] make of it, and it has the two properties again. *)
Theorem X10_orderly_events_complete st events :
  consistent (main_watch st) → rooted (main_watch st) →
  orderly_run (main_watch st) events = true →
  ∃ fuel0, ∀ fuel, (fuel0 ≤ fuel)%nat →
    ∃ st' out, process_events fuel st events = Some (st', out) ∧
               main_watch st' = registry_run (main_watch st) events ∧
               consistent (main_watch st') ∧ rooted (main_watch st').
Proof.
  intros Hc Hroot Hord.
  destruct (process_events_orderly _ _ Hc Hroot Hord) as [fuel0 H].
  exists fuel0. intros fuel Hle. by apply H.
Qed.

Lemma X10_orderly_events_complete_witness :
  ∃ fuel0, ∀ fuel, (fuel0 ≤ fuel)%nat →
    ∃ st' out,
      process_events fuel (main_init 1) (scenario 1 2 0 0) = Some (st', out) ∧
      main_watch st' = registry_run (main_watch (main_init 1)) (scenario 1 2 0 0) ∧
      consistent (main_watch st') ∧ rooted (main_watch st').
Proof.
  apply (X10_orderly_events_complete (main_init 1) (scenario 1 2 0 0)).
  - apply main_init_consistent.
  - apply main_init_rooted.
  - vm_compute. reflexivity.
Defined.

(** ** What the loop reports *)

(** X11: a new directory is registered under the path that is reported.
    For an event with a name that has [IN_CREATE] and [IN_ISDIR], under a
    descriptor other than -1 with full path [p], and a descriptor [added]
    that is not yet in the registry, the loop body hands [p/name] to
    [inotify_add_watch], prints it, stores [added] in [wd], and afterwards
    [get (added)] returns [p/name]. *)
Theorem X11_new_directory_resolves st event added p :
  ev_len event ≠ 0 →
  has_flag (ev_mask event) IN_CREATE = true →
  has_flag (ev_mask event) IN_ISDIR = true →
  ev_wd event ≠ -1 →
  full_path (watch (main_watch st)) (ev_wd event) p →
  watch (main_watch st) !! added = None →
  ∃ fuel0, ∀ fuel, (fuel0 ≤ fuel)%nat →
    ∃ st' out,
      process_event fuel st event added = Some (st', out) ∧
      Call_add_watch (p +:+ "/" +:+ ev_name event) ∈ out ∧
      Print_New_directory (p +:+ "/" +:+ ev_name event) ∈ out ∧
      main_wd st' = added ∧
      ∃ fuel1, ∀ fuel', (fuel1 ≤ fuel')%nat →
        get fuel' (main_watch st') added
          = Some (p +:+ "/" +:+ ev_name event, main_watch st').
Proof.
  intros Hlen Hcreate Hdir Hwd Hp Hnew.
  destruct (get_full_path _ _ _ Hp) as [fuel0 Hget].
  exists fuel0. intros fuel Hle. unfold process_event.
  destruct (ev_len event =? 0) eqn:Hl; [lia|].
  rewrite Hcreate, Hdir, (Hget _ Hle).
  eexists _, _. split; [reflexivity|].
  split; [rewrite !elem_of_app; right; apply elem_of_cons; by left|].
  split; [rewrite !elem_of_app; right; apply elem_of_cons; right;
          apply elem_of_cons; by left|].
  split; [reflexivity|].
  cbn [main_watch]. apply get_full_path.
  eapply full_path_child; [apply lookup_insert_eq|done|].
  by apply full_path_insert_fresh.
Qed.

Lemma X11_new_directory_resolves_witness :
  ∃ fuel0, ∀ fuel, (fuel0 ≤ fuel)%nat →
    ∃ st' out,
      process_event fuel (main_init 1)
        (named_event 1 (Z.lor IN_CREATE IN_ISDIR) "x") 2 = Some (st', out) ∧
      Call_add_watch "./tmp/x" ∈ out ∧
      Print_New_directory "./tmp/x" ∈ out ∧
      main_wd st' = 2 ∧
      ∃ fuel1, ∀ fuel', (fuel1 ≤ fuel')%nat →
        get fuel' (main_watch st') 2 = Some ("./tmp/x", main_watch st').
Proof.
  apply (X11_new_directory_resolves (main_init 1)
           (named_event 1 (Z.lor IN_CREATE IN_ISDIR) "x") 2 "./tmp").
  - simpl. lia.
  - reflexivity.
  - reflexivity.
  - simpl. lia.
  - apply full_path_root. reflexivity.
  - reflexivity.
Defined.

(** X12: an event for a plain file leaves the registry alone.  For an event
    with a name and without [IN_ISDIR] that has [IN_CREATE], or [IN_DELETE]
    and not [IN_CREATE], under a descriptor with full path [p], the loop
    body completes, the registry is as before, and the line printed names
    [p] and the file. *)
Theorem X12_file_event st event added p :
  ev_len event ≠ 0 →
  has_flag (ev_mask event) IN_ISDIR = false →
  has_flag (ev_mask event) IN_CREATE || has_flag (ev_mask event) IN_DELETE = true →
  full_path (watch (main_watch st)) (ev_wd event) p →
  ∃ fuel0, ∀ fuel, (fuel0 ≤ fuel)%nat →
    ∃ st' out,
      process_event fuel st event added = Some (st', out) ∧
      main_watch st' = main_watch st ∧
      current_dir st' = p ∧
      (if has_flag (ev_mask event) IN_CREATE
       then Print_New_file p (ev_name event)
       else Print_File_deleted p (ev_name event)) ∈ out.
Proof.
  intros Hlen Hdir Hflag Hp.
  destruct (get_full_path _ _ _ Hp) as [fuel0 Hget].
  exists fuel0. intros fuel Hle. unfold process_event.
  destruct (ev_len event =? 0) eqn:Hl; [lia|].
  rewrite Hdir, (Hget _ Hle).
  destruct (has_flag (ev_mask event) IN_CREATE).
  - eexists _, _. split; [reflexivity|]. repeat split.
    rewrite !elem_of_app. right. apply elem_of_cons. by left.
  - simpl in Hflag. rewrite Hflag.
    eexists _, _. split; [reflexivity|]. repeat split.
    rewrite !elem_of_app. right. apply elem_of_cons. by left.
Qed.

Lemma X12_file_event_witness :
  ∃ fuel0, ∀ fuel, (fuel0 ≤ fuel)%nat →
    ∃ st' out,
      process_event fuel (main_init 1) (named_event 1 IN_DELETE "f.txt") 0
        = Some (st', out) ∧
      main_watch st' = main_watch (main_init 1) ∧
      current_dir st' = "./tmp" ∧
      Print_File_deleted "./tmp" "f.txt" ∈ out.
Proof.
  apply (X12_file_event (main_init 1) (named_event 1 IN_DELETE "f.txt") 0 "./tmp").
  - simpl. lia.
  - reflexivity.
  - reflexivity.
  - apply full_path_root. reflexivity.
Defined.

(** ** The loop over the buffer *)

Lemma to_int_small z : - 2^31 ≤ z < 2^31 → to_int z = z.
Proof. intros Hz. unfold to_int. rewrite Z.mod_small; lia. Qed.

Lemma buffer_size_nonneg event_at added_at events : ∀ i,
  laid_out event_at added_at i events → 0 ≤ buffer_size events.
Proof.
  induction events as [|[event added] rest IH]; intros i Hlay; [done|].
  destruct Hlay as (_ & _ & Hlen & Hrest). apply IH in Hrest.
  change (0 ≤ EVENT_SIZE + ev_len event + buffer_size rest).
  unfold EVENT_SIZE. lia.
Qed.

(** X13: the loop over the buffer takes the events one by one.  When whole
    events lie back to back from index [i] to [length], within a buffer of
    [EVENT_BUF_LEN] bytes, the loop runs its body once for each of them, in
    order, and stops at [length]: it does what [process_events] does with
    the list. *)
Theorem X13_buffer_loop_walks_the_events events :
  ∀ steps fuel event_at added_at length i st,
    0 ≤ i →
    laid_out event_at added_at i events →
    length = i + buffer_size events →
    length ≤ EVENT_BUF_LEN →
    (List.length events ≤ steps)%nat →
    buffer_loop steps fuel event_at added_at length i st =
      match process_events fuel st events with
      | Some r => Done r
      | None => OutOfFuel
      end.
Proof.
  induction events as [|[event added] rest IH];
    intros steps fuel event_at added_at len i st Hi Hlay Hlen Hbuf Hsteps.
  - change (buffer_size []) with 0 in Hlen.
    destruct steps; simpl; (destruct (i <? len) eqn:Hlt; [lia|done]).
  - destruct Hlay as (He & Ha & Hl & Hrest).
    pose proof (buffer_size_nonneg _ _ _ _ Hrest) as Hnn.
    change (buffer_size ((event, added) :: rest))
      with (EVENT_SIZE + ev_len event + buffer_size rest) in Hlen.
    destruct steps as [|steps]; [simpl in Hsteps; lia|].
    cbn [buffer_loop process_events].
    destruct (i <? len) eqn:Hlt; [|unfold EVENT_SIZE in *; lia].
    destruct (i <? 0) eqn:Hneg; [lia|].
    rewrite He, Ha.
    destruct (process_event fuel st event added) as [[st1 out1]|]; [|done].
    rewrite to_int_small by (unfold EVENT_BUF_LEN, EVENT_SIZE, NAME_MAX in *; lia).
    rewrite (IH steps fuel event_at added_at len _ st1);
      [| unfold EVENT_SIZE; lia | done | lia | done | simpl in Hsteps; lia].
    by destruct (process_events fuel st1 rest) as [[st2 out2]|].
Qed.

Lemma X13_buffer_loop_walks_the_events_witness :
  buffer_loop 3 2
    (fun i => if i =? 0 then named_event 1 (Z.lor IN_CREATE IN_ISDIR) "x"
              else if i =? 32 then named_event 2 IN_CREATE "f.txt"
              else named_event 1 (Z.lor IN_DELETE IN_ISDIR) "x")
    (fun i => if i =? 0 then 2 else 0) 96 0 (main_init 1)
  = match process_events 2 (main_init 1) (scenario 1 2 0 0) with
    | Some r => Done r
    | None => OutOfFuel
    end.
Proof.
  apply (X13_buffer_loop_walks_the_events (scenario 1 2 0 0)).
  - lia.
  - repeat split; simpl; lia.
  - reflexivity.
  - vm_compute. discriminate.
  - simpl. lia.
Defined.

(** ** Shutdown *)

(** X14: [cleanup] has a defined outcome exactly on a registry without
    forward entries: there it deregisters nothing and leaves both maps
    empty, whatever the reverse map held; with a forward entry the loop
    increments the iterator it has just erased through. *)
Theorem X14_cleanup_defined_iff_empty w :
  (watch w = ∅ → cleanup w = Done ([], Watch_empty)) ∧
  (watch w ≠ ∅ → cleanup w = Undefined).
Proof. split; [apply cleanup_empty|apply cleanup_nonempty]. Qed.

Lemma X14_cleanup_defined_iff_empty_witness :
  cleanup (Build_Watch ∅ (rwatch reg_child)) = Done ([], Watch_empty) ∧
  cleanup reg_child = Undefined.
Proof.
  split.
  - apply (proj1 (X14_cleanup_defined_iff_empty (Build_Watch ∅ (rwatch reg_child)))).
    reflexivity.
  - apply (proj2 (X14_cleanup_defined_iff_empty reg_child)).
    intros H. apply (f_equal (fun m => m !! 1)) in H. vm_compute in H. discriminate.
Defined.

Lemma process_event_keeps_entries fuel st event added st' out :
  dir_delta event ≠ -1 →
  process_event fuel st event added = Some (st', out) →
  watch (main_watch st) ≠ ∅ → watch (main_watch st') ≠ ∅.
Proof.
  intros Hdel Hev Hne.
  assert (Hget : ∀ wd p w1, get fuel (main_watch st) wd = Some (p, w1) →
                            watch w1 ≠ ∅).
  { intros wd p w1 Hg He.
    destruct (map_choose _ Hne) as (k & e & Hk).
    apply (get_keeps_entries _ _ _ _ _ Hg) in Hk. by rewrite He in Hk. }
  unfold process_event, dir_delta in *.
  destruct (ev_len event =? 0); [by injection Hev as <- <-|].
  destruct (has_flag (ev_mask event) IN_CREATE).
  - destruct (get fuel _ _) as [[dir w1]|] eqn:Hg; [|done].
    destruct (has_flag (ev_mask event) IN_ISDIR); injection Hev as <- <-.
    + cbn [main_watch insert watch]. apply insert_non_empty.
    + cbn [main_watch]. by eapply Hget.
  - destruct (has_flag (ev_mask event) IN_DELETE);
      [|by injection Hev as <- <-].
    destruct (has_flag (ev_mask event) IN_ISDIR); [done|].
    destruct (get fuel _ _) as [[dir w1]|] eqn:Hg; [|done].
    injection Hev as <- <-. cbn [main_watch]. by eapply Hget.
Qed.

Lemma process_events_keep_entries fuel events : ∀ st st' out,
  Forall (fun ea => dir_delta ea.1 ≠ -1) events →
  process_events fuel st events = Some (st', out) →
  watch (main_watch st) ≠ ∅ → watch (main_watch st') ≠ ∅.
Proof.
  induction events as [|[event added] rest IH]; intros st st' out Hall Hrun Hne.
  - by injection Hrun as <- <-.
  - apply Forall_cons in Hall as [Hev Hall]. cbn [process_events] in Hrun.
    destruct (process_event fuel st event added) as [[st1 out1]|] eqn:Hp; [|done].
    destruct (process_events fuel st1 rest) as [[st2 out2]|] eqn:Hr; [|done].
    injection Hrun as <- <-.
    eapply IH; [done|done|]. by eapply process_event_keeps_entries.
Qed.

(** X15: when [main] leaves its loop after a run in which no event was the
    deletion of a directory, its registry still has a forward entry (the
    root's, at the least), and so the [cleanup] that follows has no defined
    outcome. *)
Theorem X15_shutdown_without_deletions fuel wd rounds : ∀ st out,
  Forall (fun r => Forall (fun ea => dir_delta ea.1 ≠ -1) r.2) rounds →
  main_loop fuel (main_init wd) [] rounds = Exited st out →
  watch (main_watch st) ≠ ∅ ∧ main_shutdown st = Undefined.
Proof.
  assert (Hgen : ∀ rounds st0 out0 st out,
            Forall (fun r => Forall (fun ea => dir_delta ea.1 ≠ -1) r.2) rounds →
            watch (main_watch st0) ≠ ∅ →
            main_loop fuel st0 out0 rounds = Exited st out →
            watch (main_watch st) ≠ ∅).
  { clear. induction rounds as [|[run events] rest IH];
      intros st0 out0 st out Hall Hne Hloop; [done|].
    apply Forall_cons in Hall as [Hev Hall]. cbn [main_loop] in Hloop.
    destruct run; [|by injection Hloop as <- <-].
    destruct (process_events fuel st0 events) as [[st1 out1]|] eqn:Hp; [|done].
    eapply IH; [done| |done]. by eapply process_events_keep_entries. }
  intros st out Hall Hloop.
  assert (Hne : watch (main_watch st) ≠ ∅).
  { eapply Hgen; [done| |done]. cbn [main_init main_watch insert watch].
    apply insert_non_empty. }
  split; [done|]. unfold main_shutdown. by rewrite cleanup_nonempty.
Qed.

Lemma X15_shutdown_without_deletions_witness :
  main_shutdown (main_init 1) = Undefined.
Proof.
  apply (X15_shutdown_without_deletions 0 1 [(false, [])] (main_init 1) []).
  - repeat constructor.
  - reflexivity.
Defined.

(** ** The registry kept in step *)

(** X16: calls that bring only new descriptors and new pairs (or repeat an
    entry as it stands) and erase only pairs that are there (or are made
    while descriptor 0 is free) keep the reverse map the exact inverse of the
    forward map, call after call; and in such a registry no two descriptors
    have the same (parent, name) pair. *)
Theorem X16_reverse_map_stays_inverse ops :
  admissible_run Watch_empty ops = true →
  Forall consistent (states_after Watch_empty ops) ∧
  (∀ wd1 wd2 e,
     watch (run Watch_empty ops) !! wd1 = Some e →
     watch (run Watch_empty ops) !! wd2 = Some e → wd1 = wd2).
Proof.
  intros Ha. split.
  - apply admissible_run_states; [apply consistent_empty|done].
  - intros wd1 wd2 e H1 H2.
    pose proof (admissible_run_consistent _ _ consistent_empty Ha) as Hc.
    apply Hc in H1, H2. congruence.
Qed.

Lemma X16_reverse_map_stays_inverse_witness :
  Forall consistent (states_after Watch_empty ops_abc) ∧
  (∀ wd2, watch (run Watch_empty ops_abc) !! wd2 = Some (Build_wd_elem 1 "a") →
          2 = wd2).
Proof.
  destruct (X16_reverse_map_stays_inverse ops_abc) as [Hall Huniq]; [reflexivity|].
  split; [exact Hall|]. intros wd2 H2.
  apply (Huniq 2 wd2 (Build_wd_elem 1 "a")); [reflexivity|exact H2].
Defined.
